(** * vizic: the benchmark notebook's [overPop] and the notebook-extension stub

    The development embeds two pieces of the repository:

    - [overPop] from [examples/demo4 (performance).ipynb]: the function that
      duplicates a sample catalog [times] times and then assigns random
      positions ([ra], [dec]) in a 15 x 15 degree square to every row;
    - [js/src/extension.js]: the loader stub of the Jupyter notebook
      extension.

    [overPop] works on pandas objects.  A [DataFrame] is a mutable object, so
    the embedding threads an explicit object store (a [gmap] from locations to
    frames) together with the state of numpy's global random generator
    through a small state-and-exception monad.  Cells of type [float64] are
    IEEE-754 binary64 numbers, taken from the Standard Library's [SpecFloat]. *)

From Stdlib Require Import ZArith Lia SpecFloat.
From stdpp Require Import gmap strings list.

Local Open Scope Z_scope.

(** ** binary64 numbers *)

Module Float64.

Definition prec : Z := 53.
Definition emax : Z := 1024.

Definition of_Z (z : Z) : spec_float := binary_normalize prec emax z 0 false.
Definition zero : spec_float := S754_zero false.
Definition mul (x y : spec_float) : spec_float := SFmul prec emax x y.
Definition leb (x y : spec_float) : bool := SFleb x y.
Definition ltb (x y : spec_float) : bool := SFltb x y.
Definition valid (x : spec_float) : bool := valid_binary prec emax x.

(** The literal [15] of the notebook, promoted to [float64] by numpy. *)
Definition fifteen : spec_float := of_Z 15.

(** The double [k / 2^53]; the quotient is exact for [0 <= k < 2^53]. *)
Definition unit_double (k : Z) : spec_float :=
  binary_normalize prec emax k (-53) false.

(** A proper (canonical, finite) double in the interval [[0, 15)]. *)
Definition in_0_15 (x : spec_float) : Prop :=
  leb zero x = true ∧ ltb x fifteen = true ∧ valid x = true.

(** The state of the right-shift register of [SpecFloat] after [j]
    one-bit shifts of [m]: the quotient, and a round bit that is only set
    when the part shifted out is at least half a unit. *)
Definition shifted (m j : Z) (mrs : shr_record) : Prop :=
  shr_m mrs = m / 2 ^ j ∧ (shr_r mrs = true → 2 ^ j ≤ 2 * (m mod 2 ^ j)).

End Float64.

(** ** Data model: cells and frames *)

(** A cell of a frame: the scalar kinds a catalog column can hold. *)
Inductive scalar :=
  | SInt (z : Z)
  | SFloat (x : spec_float)
  | SStr (s : string).

Definition NaN : scalar := SFloat S754_nan.

(** A pandas [DataFrame]: the row labels and the columns in their order, each
    column a label with its cells.  pandas allows repeated column labels, so
    the columns are an association list, not a map. *)
Record DataFrame := mkDataFrame {
  index : list scalar;
  columns : list (string * list scalar)
}.

(** [df.shape[0]] *)
Definition nrows (d : DataFrame) : nat := length (index d).

(** Every column has one cell per row label. *)
Definition well_formed (d : DataFrame) : Prop :=
  Forall (λ c, length c.2 = nrows d) (columns d).

(** [RangeIndex(n)]: the labels [0 .. n-1]. *)
Definition RangeIndex (n : nat) : list scalar :=
  (λ i, SInt (Z.of_nat i)) <$> seq 0 n.

Definition column_labels (d : DataFrame) : list string := (columns d).*1.

(** Row [i] as the tuple of its named cells. *)
Definition row (d : DataFrame) (i : nat) : list (string * option scalar) :=
  (λ c, (c.1, c.2 !! i)) <$> columns d.

Definition rows (d : DataFrame) : list (list (string * option scalar)) :=
  row d <$> seq 0 (nrows d).

Definition is_position (c : string) : bool :=
  bool_decide (c = "ra"%string) || bool_decide (c = "dec"%string).

(** The frame without its position columns. *)
Definition drop_positions (d : DataFrame) : DataFrame :=
  {| index := index d;
     columns := filter (λ c, is_position c.1 = false) (columns d) |}.

(** *** Frame operations (on values) *)

Definition lookup_column (c : string) (d : DataFrame) : option (list scalar) :=
  (λ e, e.2.2) <$> list_find (λ e, e.1 = c) (columns d).

(** The exceptions the modelled operations can raise. *)
Inductive exn :=
  | ValueError          (* length of values does not match length of index *)
  | InvalidIndexError   (* reindexing on repeated column labels *)
  | NotAnObject (r : positive).  (* the reference is bound to no frame *)

(** [DataFrame.append(other, ignore_index)]: the rows of [other] after the
    rows of [self].  Frames with the same column labels are glued column by
    column.  Otherwise the columns are aligned by label, which pandas only
    does for labels without repetition: a column of [self] missing in [other]
    is filled with NaN and the other way round, the columns of [self] come
    first. *)
Definition concat_frames (a b : DataFrame) (ignore_index : bool)
  : exn + DataFrame :=
  let idx := if ignore_index then RangeIndex (nrows a + nrows b)
             else index a ++ index b in
  if bool_decide (column_labels a = column_labels b) then
    inr {| index := idx;
           columns := zip_with (λ ca cb, (ca.1, ca.2 ++ cb.2))
                        (columns a) (columns b) |}
  else if bool_decide (NoDup (column_labels a) ∧ NoDup (column_labels b)) then
    let nans n := replicate n NaN in
    let left :=
      (λ c, (c.1, c.2 ++ default (nans (nrows b)) (lookup_column c.1 b)))
        <$> columns a in
    let right :=
      (λ c, (c.1, nans (nrows a) ++ c.2))
        <$> filter (λ c, c.1 ∉ column_labels a) (columns b) in
    inr {| index := idx; columns := left ++ right |}
  else inl InvalidIndexError.

(** What appending a frame to itself gives: one round of the loop of
    [overPop] (see [concat_frames_self]). *)
Definition dup (d : DataFrame) : DataFrame :=
  {| index := RangeIndex (nrows d + nrows d);
     columns := (λ c, (c.1, c.2 ++ c.2)) <$> columns d |}.

(** How many columns carry the label [c]. *)
Definition count_label (c : string) (d : DataFrame) : nat :=
  length (filter (λ l, l = c) (column_labels d)).

(** [_set_item]: a column labelled [c] is overwritten where it stands with
    the whole array (every one of them, should the label be repeated); a new
    label is added as the last column. *)
Definition set_item (c : string) (arr : list scalar) (d : DataFrame)
  : DataFrame :=
  {| index := index d;
     columns :=
       if bool_decide (c ∈ column_labels d)
       then (λ e, if bool_decide (e.1 = c) then (c, arr) else e) <$> columns d
       else columns d ++ [(c, arr)] |}.

(** [_setitem_array([c], arr)] for a repeated label: the columns labelled [c]
    are set one at a time, the [i]-th of them to the value [arr[i]], which
    fills all its rows. *)
Fixpoint spread (c : string) (n : nat) (arr : list scalar)
  (cols : list (string * list scalar)) : list (string * list scalar) :=
  match cols with
  | [] => []
  | e :: cols' =>
      if bool_decide (e.1 = c) then
        match arr with
        | x :: arr' => (c, replicate n x) :: spread c n arr' cols'
        | [] => e :: spread c n [] cols'
        end
      else e :: spread c n arr cols'
  end.

Definition setitem_array (c : string) (arr : list scalar) (d : DataFrame)
  : DataFrame :=
  {| index := index d; columns := spread c (nrows d) arr (columns d) |}.

(** The test of [__setitem__] for "column to set is duplicated": the label
    is there more than once, as many times as the array has values. *)
Definition repeated_key (c : string) (arr : list scalar) (d : DataFrame)
  : bool :=
  bool_decide (1 < count_label c d ∧ count_label c d = length arr)%nat.

(** [df[c] = arr] on the frame value, as pandas 1.3 to 1.5 do it.  (Before
    1.3 there is no case for a repeated label: [_set_item] is used
    throughout.) *)
Definition set_column (c : string) (arr : list scalar) (d : DataFrame)
  : DataFrame :=
  if repeated_key c arr d then setitem_array c arr d else set_item c arr d.

(** What [df[c] = arr] leaves in the columns labelled [c] of a frame with
    [n] rows that had [k] such columns (see [columns_set_column_eq]). *)
Definition assigned (c : string) (arr : list scalar) (k n : nat)
  : list (string * list scalar) :=
  if bool_decide (1 < k ∧ k = length arr)%nat
  then (λ x, (c, replicate n x)) <$> arr
  else replicate (Nat.max 1 k) (c, arr).

(** ** The interpreter state: object store and random generator *)

Definition loc := positive.

(** The core of numpy's global generator: a source of 32-bit words
    ([rk_random] of the Mersenne twister in the legacy [RandomState]). *)
Class BitGenerator (G : Type) := next_uint32 : G → Z * G.

Section Interp.

Context {G : Type} `{!BitGenerator G}.

Record World := mkWorld {
  heap : gmap loc DataFrame;
  rng : G
}.

(** Computations: read and write the world, return a value or raise. *)
Definition M (A : Type) : Type := World → (exn + A) * World.

#[global] Instance M_ret : MRet M := λ A a w, (inr a, w).
#[global] Instance M_bind : MBind M := λ A B k m w,
  match m w with
  | (inl e, w') => (inl e, w')
  | (inr a, w') => k a w'
  end.

Definition raise {A} (e : exn) : M A := λ w, (inl e, w).

(** *** Store primitives *)

Definition deref (r : loc) : M DataFrame := λ w,
  match heap w !! r with
  | Some d => (inr d, w)
  | None => (inl (NotAnObject r), w)
  end.

Definition alloc (d : DataFrame) : M loc := λ w,
  let r := fresh (dom (heap w)) in
  (inr r, {| heap := <[r := d]> (heap w); rng := rng w |}).

Definition store (r : loc) (d : DataFrame) : M () := λ w,
  (inr (), {| heap := <[r := d]> (heap w); rng := rng w |}).

(** *** pandas methods *)

(** [df.copy()]: a new object with the same labels and cells. *)
Definition DataFrame_copy (df : loc) : M loc :=
  d ← deref df; alloc d.

(** [self.append(other, ignore_index=...)] (the method of pandas before
    2.0, which the notebook uses): returns a new object, neither operand is
    modified. *)
Definition DataFrame_append (self other : loc) (ignore_index : bool)
  : M loc :=
  a ← deref self; b ← deref other;
  match concat_frames a b ignore_index with
  | inr d => alloc d
  | inl e => raise e
  end.

(** [df.shape[0]] *)
Definition DataFrame_shape0 (df : loc) : M nat :=
  d ← deref df; mret (nrows d).

(** [df[c] = arr]: modifies the object in place.  A repeated label with as
    many columns as the array has values is set column by column; otherwise
    the array is the new column, and pandas raises [ValueError] when it is
    not as long as the index. *)
Definition DataFrame_setitem (df : loc) (c : string)
  (arr : list spec_float) : M () :=
  d ← deref df;
  if repeated_key c (SFloat <$> arr) d
  then store df (setitem_array c (SFloat <$> arr) d)
  else if bool_decide (length arr = nrows d)
  then store df (set_item c (SFloat <$> arr) d)
  else raise ValueError.

(** *** numpy *)

(** One double in [[0, 1)] with 53 random bits, as [rk_double] builds it
    from two 32-bit words: [(a >> 5, b >> 6)],
    [(a * 67108864.0 + b) / 9007199254740992.0]. *)
Definition random_double (g : G) : spec_float * G :=
  let '(a, g1) := next_uint32 g in
  let '(b, g2) := next_uint32 g1 in
  let a := Z.shiftr (a mod 2 ^ 32) 5 in
  let b := Z.shiftr (b mod 2 ^ 32) 6 in
  (Float64.unit_double (a * 67108864 + b), g2).

Fixpoint random_doubles (n : nat) (g : G) : list spec_float * G :=
  match n with
  | O => ([], g)
  | S n' =>
      let '(x, g1) := random_double g in
      let '(xs, g2) := random_doubles n' g1 in
      (x :: xs, g2)
  end.

(** [np.random.random_sample((n,))]: draws from the global generator. *)
Definition random_sample (n : nat) : M (list spec_float) := λ w,
  let '(xs, g) := random_doubles n (rng w) in
  (inr xs, {| heap := heap w; rng := g |}).

(** [arr * k] for an array of doubles and a scalar. *)
Definition ndarray_mul (arr : list spec_float) (k : spec_float)
  : list spec_float :=
  (λ x, Float64.mul x k) <$> arr.

(** *** Control *)

Fixpoint for_loop {A} (n : nat) (i : Z) (body : Z → A → M A) (a : A)
  : M A :=
  match n with
  | O => mret a
  | S n' => a' ← body i a; for_loop n' (i + 1) body a'
  end.

(** [for i in range(n): a = body(i, a)]; [range(n)] is empty for [n <= 0]. *)
Definition for_range {A} (n : Z) (body : Z → A → M A) (a : A) : M A :=
  for_loop (Z.to_nat n) 0 body a.

(** ** The notebook's function *)

Definition overPop (df : loc) (times : Z) : M loc :=
  df_copy ← DataFrame_copy df;
  df_copy ← for_range times
    (λ i df_copy, DataFrame_append df_copy df_copy true) df_copy;
  rows ← DataFrame_shape0 df_copy;
  (* create random positions *)
  x ← (s ← random_sample rows; mret (ndarray_mul s Float64.fifteen));
  y ← (s ← random_sample rows; mret (ndarray_mul s Float64.fifteen));
  (* assign positions to objects in catalog *)
  DataFrame_setitem df_copy "ra" x;;
  DataFrame_setitem df_copy "dec" y;;
  mret df_copy.

(** *** The two phases of [overPop] *)

(** Lines 1-3 of the body: the copy and the duplication loop. *)
Definition inflate (df : loc) (times : Z) : M loc :=
  df_copy ← DataFrame_copy df;
  for_range times
    (λ i df_copy, DataFrame_append df_copy df_copy true) df_copy.

(** The rest of the body: random positions written into [df_copy]. *)
Definition assign_positions (df_copy : loc) : M loc :=
  rows ← DataFrame_shape0 df_copy;
  x ← (s ← random_sample rows; mret (ndarray_mul s Float64.fifteen));
  y ← (s ← random_sample rows; mret (ndarray_mul s Float64.fifteen));
  DataFrame_setitem df_copy "ra" x;;
  DataFrame_setitem df_copy "dec" y;;
  mret df_copy.

(** The frame [assign_positions] leaves in [df_copy], from the frame that
    was there and the state of the generator (see
    [assign_positions_spec]). *)
Definition positioned (d : DataFrame) (g : G) : DataFrame :=
  let xs := random_doubles (nrows d) g in
  let ys := random_doubles (nrows d) xs.2 in
  set_column "dec" (SFloat <$> ndarray_mul ys.1 Float64.fifteen)
    (set_column "ra" (SFloat <$> ndarray_mul xs.1 Float64.fifteen) d).

(** The generator after [n] words have been taken from it. *)
Definition skip_words (n : nat) (g : G) : G :=
  Nat.iter n (λ g, (next_uint32 g).2) g.

(** Word [i] of the stream that starts at [g], the double that
    [random_sample] makes of the words [2 i] and [2 i + 1], and that double
    times [15.0] as a cell. *)
Definition word (i : nat) (g : G) : Z := (next_uint32 (skip_words i g)).1.

Definition draw (i : nat) (g : G) : spec_float :=
  Float64.unit_double
    (Z.shiftr (word (2 * i) g mod 2 ^ 32) 5 * 67108864
     + Z.shiftr (word (2 * i + 1) g mod 2 ^ 32) 6).

Definition position (i : nat) (g : G) : scalar :=
  SFloat (Float64.mul (draw i g) Float64.fifteen).

(** The cells of [n] draws in a row, from draw [first] on. *)
Definition drawn (first n : nat) (g : G) : list scalar :=
  (λ i, position (first + i) g) <$> seq 0 n.

End Interp.

Arguments World G : clear implicits.
Arguments M G A : clear implicits.

(** ** [js/src/extension.js] *)

Module Extension.

#[warnings="-register-all"] Inductive js_value :=
  | JSUndefined
  | JSString (s : string)
  | JSObject (fields : list (string * js_value)).

(** What the script can see and change of the page: [window.require],
    present when requirejs is loaded, with the configurations it has been
    given so far. *)
Record window := mkWindow {
  require : option (list js_value)
}.

(** [window.require.config(cfg)] *)
Definition require_config (cfg : js_value) (win : window) : window :=
  {| require := (λ cfgs, cfgs ++ [cfg]) <$> require win |}.

(** A function value: its declared number of parameters and what a call
    with a list of arguments does. *)
Record js_function := mkFunction {
  fn_length : nat;
  fn_call : list js_value → window → js_value * window
}.

(** [function() {}] *)
Definition empty_function : js_function :=
  {| fn_length := 0; fn_call := λ _ win, (JSUndefined, win) |}.

Record exports := mkExports {
  load_ipython_extension : js_function
}.

Definition requirejs_map : js_value :=
  JSObject [("map", JSObject [("*", JSObject
    [("jupyter-vizic", JSString "nbextensions/jupyter-vizic/index");
     ("jupyter-js-widgets",
      JSString "nbextensions/jupyter-js-widgets/extension")])])]%string.

(** Evaluating the script: configure requirejs if it is there, then set
    [module.exports]. *)
Definition extension (win : window) : exports * window :=
  let win :=
    match require win with
    | Some _ => require_config requirejs_map win
    | None => win
    end in
  ({| load_ipython_extension := empty_function |}, win).

End Extension.

(** ** [js/webpack.config.js] *)

Module Webpack.

(** *** Regular expressions *)

(** The syntax that the literals of the file use.  Strings are sequences of
    UTF-16 code units; [Dot] is the [.] of JavaScript, any code unit but a
    line terminator. *)
Inductive regex :=
  | Never
  | Empty
  | Chr (c : N)
  | Dot
  | Alt (r1 r2 : regex)
  | Cat (r1 r2 : regex)
  | Star (r : regex).

(** A literal [/body/] or [/body$/], without flags. *)
Record RegExp := mkRegExp {
  body : regex;
  dollar : bool
}.

(** LF, CR, LS, PS *)
Definition line_terminator (c : N) : bool :=
  bool_decide (c ∈ [10; 13; 8232; 8233]%N).

(** The strings a pattern matches. *)
Inductive lang : regex → list N → Prop :=
  | lang_Empty : lang Empty []
  | lang_Chr c : lang (Chr c) [c]
  | lang_Dot c : line_terminator c = false → lang Dot [c]
  | lang_Alt_l r1 r2 s : lang r1 s → lang (Alt r1 r2) s
  | lang_Alt_r r1 r2 s : lang r2 s → lang (Alt r1 r2) s
  | lang_Cat r1 r2 s1 s2 : lang r1 s1 → lang r2 s2 → lang (Cat r1 r2) (s1 ++ s2)
  | lang_Star_nil r : lang (Star r) []
  | lang_Star_app r s1 s2 :
      lang r s1 → lang (Star r) s2 → lang (Star r) (s1 ++ s2).

(** Matching by derivatives. *)
Fixpoint nullable (r : regex) : bool :=
  match r with
  | Never | Chr _ | Dot => false
  | Empty | Star _ => true
  | Alt r1 r2 => nullable r1 || nullable r2
  | Cat r1 r2 => nullable r1 && nullable r2
  end.

Fixpoint deriv (c : N) (r : regex) : regex :=
  match r with
  | Never | Empty => Never
  | Chr a => if bool_decide (a = c) then Empty else Never
  | Dot => if line_terminator c then Never else Empty
  | Alt r1 r2 => Alt (deriv c r1) (deriv c r2)
  | Cat r1 r2 =>
      if nullable r1 then Alt (Cat (deriv c r1) r2) (deriv c r2)
      else Cat (deriv c r1) r2
  | Star r => Cat (deriv c r) (Star r)
  end.

(** Is there a match that starts where [s] starts (and, with [$], ends where
    [s] ends)? *)
Fixpoint match_here (r : regex) (dollar : bool) (s : list N) : bool :=
  nullable r && (negb dollar || bool_decide (s = []))
  || match s with
     | [] => false
     | c :: s' => match_here (deriv c r) dollar s'
     end.

(** Is there a match that starts somewhere in [s]? *)
Fixpoint search (r : regex) (dollar : bool) (s : list N) : bool :=
  match_here r dollar s
  || match s with
     | [] => false
     | _ :: s' => search r dollar s'
     end.

Definition no_line_terminator (m : list N) : Prop :=
  Forall (λ c, line_terminator c = false) m.

(** [re.test(s)] *)
Definition RegExp_test (re : RegExp) (s : list N) : bool :=
  search (body re) (dollar re) s.

(** The code units of a string of ASCII characters, and the pattern that
    matches just them. *)
Definition str (s : string) : list N :=
  Ascii.N_of_ascii <$> String.list_ascii_of_string s.

Definition lit_of (l : list N) : regex := foldr (λ c r, Cat (Chr c) r) Empty l.

Definition lit (s : string) : regex := lit_of (str s).

(** *** The file *)

(** [/leaflet\/images\/marker-.*\.png/] *)
Definition leaflet_marker_selector : RegExp :=
  {| body := Cat (lit "leaflet/images/marker-") (Cat (Star Dot) (lit ".png"));
     dollar := false |}.

(** [/leaflet\/images\/layers.*\.png/] *)
Definition leaflet_layer_icon : RegExp :=
  {| body := Cat (lit "leaflet/images/layers") (Cat (Star Dot) (lit ".png"));
     dollar := false |}.

(** [/leaflet-fullscreen\/dist\/fullscreen.*\.png/] *)
Definition fullscreen_icon : RegExp :=
  {| body := Cat (lit "leaflet-fullscreen/dist/fullscreen")
               (Cat (Star Dot) (lit ".png"));
     dollar := false |}.

(** [/\.json$/], [/\.css$/] and [/\.(jpg|png|gif|svg)$/] *)
Definition json_test : RegExp := {| body := lit ".json"; dollar := true |}.

Definition css_test : RegExp := {| body := lit ".css"; dollar := true |}.

Definition image_test : RegExp :=
  {| body := Cat (lit ".")
               (Alt (lit "jpg") (Alt (lit "png") (Alt (lit "gif") (lit "svg"))));
     dollar := true |}.

(** An entry of [module.loaders]. *)
Record loader_rule := mkRule {
  test : RegExp;
  loader : string;
  exclude : list RegExp
}.

Definition generic_file_rule : loader_rule :=
  {| test := image_test; loader := "file";
     exclude := [leaflet_marker_selector; fullscreen_icon] |}.

Definition loaders : list loader_rule :=
  [ {| test := json_test; loader := "json-loader"; exclude := [] |};
    {| test := css_test; loader := "style-loader!css-loader"; exclude := [] |};
    generic_file_rule;
    {| test := leaflet_marker_selector; loader := "file?name=[name].[ext]";
       exclude := [] |};
    {| test := leaflet_layer_icon; loader := "file?name=[name].[ext]";
       exclude := [] |};
    {| test := fullscreen_icon; loader := "file?name=[name].[ext]";
       exclude := [] |} ].

(** webpack applies a rule to a resource when [test] matches its path and no
    pattern of [exclude] does; the loaders of all the rules that apply are
    used, in the order of the list. *)
Definition applies (path : list N) (rule : loader_rule) : bool :=
  RegExp_test (test rule) path
  && forallb (λ re, negb (RegExp_test re path)) (exclude rule).

Definition loaders_for (path : list N) : list string :=
  loader <$> filter (λ rule, applies path rule = true) loaders.

End Webpack.

(** ** A concrete setting for examples *)

Module Example.

(** A linear congruential generator standing in for the Mersenne
    twister. *)
#[global] Instance lcg : BitGenerator Z := λ s,
  let s' := (1664525 * s + 1013904223) mod 2 ^ 32 in (s', s').

(** Two objects; the second already has a column [ra], and row labels
    that are not [0, 1]. *)
Definition d0 : DataFrame :=
  {| index := [SInt 5; SInt 7];
     columns := [("objID", [SInt 11; SInt 22]);
                 ("ra", [SStr "a"; SStr "b"]);
                 ("u", [SFloat (Float64.of_Z 19); SFloat (Float64.of_Z 21)])
                ]%string |}.

Definition df0 : loc := 1%positive.

Definition w0 : World Z := {| heap := {[ df0 := d0 ]}; rng := 42 |}.

(** A second world: the same catalog at another place, another catalog
    beside it, another state of the generator. *)
Definition w0' : World Z :=
  {| heap := {[ 1%positive := dup d0; 5%positive := d0 ]}; rng := 7 |}.

(** A catalog with the columns of [d0] and no row, and one with two rows and
    other cells than [d0], in worlds with the generator of [w0]. *)
Definition d_empty : DataFrame :=
  {| index := [];
     columns := [("objID", []); ("ra", []); ("u", [])]%string |}.

Definition w_empty : World Z := {| heap := {[ df0 := d_empty ]}; rng := 42 |}.

Definition d1 : DataFrame :=
  {| index := [SStr "a"; SStr "b"];
     columns := [("dec", [SInt 1; SInt 2]); ("g", [SInt 3; SInt 4])]%string |}.

Definition w1 : World Z := {| heap := {[ 4%positive := d1 ]}; rng := 42 |}.

(** A catalog with two rows and two columns named [ra]. *)
Definition d_rep : DataFrame :=
  {| index := [SInt 0; SInt 1];
     columns := [("ra", [SInt 1; SInt 2]); ("objID", [SInt 11; SInt 22]);
                 ("ra", [SInt 3; SInt 4])]%string |}.

Definition w_rep : World Z := {| heap := {[ df0 := d_rep ]}; rng := 42 |}.

End Example.

(** * Properties *)

(** ** binary64: a double below one times [15.0] stays below [15.0] *)

Module Float64Facts.
Import Float64.

(** *** Number of binary digits *)

Lemma digits2_pos_bounds p :
  2 ^ (Z.pos (digits2_pos p) - 1) ≤ Z.pos p < 2 ^ Z.pos (digits2_pos p).
Proof.
  induction p as [p IH | p IH |]; cbn [digits2_pos].
  - rewrite Pos2Z.inj_succ, (Pos2Z.inj_xI p).
    replace (Z.succ (Z.pos (digits2_pos p)) - 1)
      with (Z.succ (Z.pos (digits2_pos p) - 1)) by lia.
    rewrite !Z.pow_succ_r by lia.
    set (a := 2 ^ (Z.pos (digits2_pos p) - 1)) in *.
    set (b := 2 ^ Z.pos (digits2_pos p)) in *. clearbody a b. lia.
  - rewrite Pos2Z.inj_succ, (Pos2Z.inj_xO p).
    replace (Z.succ (Z.pos (digits2_pos p)) - 1)
      with (Z.succ (Z.pos (digits2_pos p) - 1)) by lia.
    rewrite !Z.pow_succ_r by lia.
    set (a := 2 ^ (Z.pos (digits2_pos p) - 1)) in *.
    set (b := 2 ^ Z.pos (digits2_pos p)) in *. clearbody a b. lia.
  - simpl. lia.
Qed.

Lemma digits2_pos_unique p n :
  2 ^ (n - 1) ≤ Z.pos p < 2 ^ n → Z.pos (digits2_pos p) = n.
Proof.
  intros [Hlo Hhi]. pose proof (digits2_pos_bounds p) as [Hlo' Hhi'].
  assert (0 < n) as Hn.
  { destruct (Z.lt_ge_cases 0 n) as [|Hle]; [done |].
    destruct (Z.eq_dec n 0) as [-> |]; [simpl in Hhi; lia |].
    rewrite (Z.pow_neg_r 2 n) in Hhi by lia. lia. }
  destruct (Z.lt_trichotomy (Z.pos (digits2_pos p)) n)
    as [Hlt | [Heq | Hgt]]; [| done |].
  - assert (2 ^ Z.pos (digits2_pos p) ≤ 2 ^ (n - 1))
      by (apply Z.pow_le_mono_r; lia).
    lia.
  - assert (2 ^ n ≤ 2 ^ (Z.pos (digits2_pos p) - 1))
      by (apply Z.pow_le_mono_r; lia).
    lia.
Qed.

Lemma digits2_pos_iter_xO m d :
  Z.pos (digits2_pos (Pos.iter xO m d)) = Z.pos (digits2_pos m) + Z.pos d.
Proof.
  induction d as [|d IH] using Pos.peano_ind.
  - simpl. lia.
  - rewrite Pos.iter_succ. cbn [digits2_pos]. lia.
Qed.

(** *** The right shift of [SpecFloat] *)

Lemma iter_pos_nat {A} (f : A → A) n x :
  SpecFloat.iter_pos f n x = Nat.iter (Pos.to_nat n) f x.
Proof.
  revert x.
  induction n as [n IH | n IH |]; intros x; cbn [SpecFloat.iter_pos].
  - rewrite !IH, Pos2Nat.inj_xI, <- Nat.iter_add, <- Nat.iter_succ_r.
    f_equal. lia.
  - rewrite !IH, Pos2Nat.inj_xO, <- Nat.iter_add. f_equal. lia.
  - reflexivity.
Qed.

Lemma shr_1_spec mrs :
  0 ≤ shr_m mrs →
  shr_m (shr_1 mrs) = shr_m mrs / 2 ∧ shr_r (shr_1 mrs) = Z.odd (shr_m mrs).
Proof.
  destruct mrs as [[|[p|p|]|p] r s]; cbn [shr_1 shr_m shr_r]; intros Hm;
    try lia.
  - split; reflexivity.
  - split; [| reflexivity].
    rewrite (Pos2Z.inj_xI p). apply Z.div_unique with 1; lia.
  - split; [| reflexivity].
    rewrite (Pos2Z.inj_xO p). apply Z.div_unique with 0; lia.
  - split; reflexivity.
Qed.

Lemma shifted_step m j mrs :
  0 ≤ m → 0 ≤ j → shifted m j mrs → shifted m (j + 1) (shr_1 mrs).
Proof.
  intros Hm Hj [Hq Hr].
  assert (0 < 2 ^ j) as Hpow by (apply Z.pow_pos_nonneg; lia).
  assert (0 ≤ shr_m mrs) as Hpos by (rewrite Hq; apply Z.div_pos; lia).
  destruct (shr_1_spec mrs Hpos) as [Hq1 Hr1].
  unfold shifted. rewrite Z.pow_add_r, Z.pow_1_r by lia. split.
  - rewrite Hq1, Hq. rewrite Z.div_div by lia. reflexivity.
  - rewrite Hr1, Hq. intros Hodd.
    rewrite Z.rem_mul_r by lia.
    rewrite Zmod_odd, Hodd.
    pose proof (Z.mod_pos_bound m (2 ^ j) Hpow). lia.
Qed.

Lemma shifted_iter m n mrs :
  0 ≤ m → shifted m 0 mrs → shifted m (Z.of_nat n) (Nat.iter n shr_1 mrs).
Proof.
  intros Hm H0. induction n as [|n IH]; [exact H0 |].
  rewrite Nat2Z.inj_succ. simpl. apply shifted_step; [lia | lia | exact IH].
Qed.

Lemma shr_shifted m e p :
  0 ≤ m →
  let '(mrs, e') := shr (shr_record_of_loc m loc_Exact) e (Z.pos p) in
  shifted m (Z.pos p) mrs ∧ e' = e + Z.pos p.
Proof.
  intros Hm. simpl. split; [| reflexivity].
  rewrite iter_pos_nat, <- positive_nat_Z. apply shifted_iter; [done |].
  split; simpl; [by rewrite Z.div_1_r | done].
Qed.

Lemma round_nearest_even_cases mrs :
  let m := round_nearest_even (shr_m mrs) (loc_of_shr_record mrs) in
  m = shr_m mrs ∨ (m = shr_m mrs + 1 ∧ shr_r mrs = true).
Proof.
  destruct mrs as [q [|] [|]]; simpl; try (by left); try (by right).
  destruct (Z.even q); [by left | by right].
Qed.

(** *** Rounding *)

Lemma fexp_eq x : fexp prec emax x = Z.max (x - 53) (-1074).
Proof. reflexivity. Qed.

Lemma shr_fexp_canonical m e :
  Z.pos (digits2_pos m) = 53 → -1074 ≤ e →
  shr_fexp prec emax (Z.pos m) e loc_Exact =
    ({| shr_m := Z.pos m; shr_r := false; shr_s := false |}, e).
Proof.
  intros Hd He. unfold shr_fexp. cbn [Zdigits2]. rewrite Hd, fexp_eq.
  replace (Z.max (53 + e - 53) (-1074) - e) with 0 by lia. reflexivity.
Qed.

(** Rounding a mantissa that already has 53 digits changes nothing. *)
Lemma binary_round_aux_canonical s m e :
  Z.pos (digits2_pos m) = 53 → -1074 ≤ e ≤ 971 →
  binary_round_aux prec emax s (Z.pos m) e loc_Exact = S754_finite s m e.
Proof.
  intros Hd He. unfold binary_round_aux.
  rewrite shr_fexp_canonical by (done || lia).
  cbn [shr_m loc_of_shr_record round_nearest_even].
  rewrite shr_fexp_canonical by (done || lia). cbn [shr_m].
  replace (e <=? emax - prec) with true; [done |].
  symmetry. apply Z.leb_le. unfold emax, prec. lia.
Qed.

Lemma pos_iter_xO_value m d :
  Z.pos (Pos.iter xO m d) = Z.pos m * 2 ^ Z.pos d.
Proof.
  induction d as [|d IH] using Pos.peano_ind.
  - simpl. lia.
  - rewrite Pos.iter_succ, Pos2Z.inj_succ, Z.pow_succ_r by lia.
    rewrite (Pos2Z.inj_xO (Pos.iter xO m d)), IH. lia.
Qed.

(** Aligning to a smaller exponent shifts the mantissa to the left. *)
Lemma shl_align_spec mx ex ex' :
  ex' ≤ ex →
  Z.pos (digits2_pos (shl_align mx ex ex').1)
    = Z.pos (digits2_pos mx) + (ex - ex')
  ∧ Z.pos (shl_align mx ex ex').1 = Z.pos mx * 2 ^ (ex - ex')
  ∧ (shl_align mx ex ex').2 = ex'.
Proof.
  intros Hle. unfold shl_align. destruct (ex' - ex) as [|d|d] eqn:Hd; simpl.
  - replace (ex - ex') with 0 by lia. simpl. lia.
  - lia.
  - rewrite digits2_pos_iter_xO, pos_iter_xO_value.
    replace (ex - ex') with (Z.pos d) by lia. lia.
Qed.

(** *** The operands and the product *)

Lemma fifteen_eq : fifteen = S754_finite false 8444249301319680 (-49).
Proof. reflexivity. Qed.

(** [k / 2^53] is zero or a normal double below one; the mantissa and the
    exponent give [k / 2^53] exactly. *)
Lemma unit_double_cases k :
  0 ≤ k < 2 ^ 53 →
  (k = 0 ∧ unit_double k = S754_zero false)
  ∨ ∃ m e, unit_double k = S754_finite false m e
       ∧ Z.pos (digits2_pos m) = 53 ∧ -105 ≤ e ≤ -53
       ∧ Z.pos m = k * 2 ^ (-53 - e).
Proof.
  intros [Hlo Hhi]. destruct k as [|p|p]; [by left | right | lia].
  unfold unit_double, binary_normalize, binary_round.
  pose proof (digits2_pos_bounds p) as [Hdlo Hdhi].
  assert (Z.pos (digits2_pos p) ≤ 53) as Hd.
  { destruct (Z.le_gt_cases (Z.pos (digits2_pos p)) 53) as [|Hgt]; [done |].
    assert (2 ^ 53 ≤ 2 ^ (Z.pos (digits2_pos p) - 1))
      by (apply Z.pow_le_mono_r; lia).
    lia. }
  rewrite fexp_eq.
  replace (Z.max (Z.pos (digits2_pos p) + -53 - 53) (-1074))
    with (Z.pos (digits2_pos p) - 106) by lia.
  destruct (shl_align_spec p (-53) (Z.pos (digits2_pos p) - 106))
    as (Hdz & Hmz & Hez); [lia |].
  destruct (shl_align p (-53) (Z.pos (digits2_pos p) - 106)) as [mz ez].
  simpl in Hdz, Hmz, Hez. subst ez.
  exists mz, (Z.pos (digits2_pos p) - 106).
  split; [apply binary_round_aux_canonical; lia |].
  split; [lia |]. split; [lia |]. exact Hmz.
Qed.

(** The product of a normal double below one with [15.0] is again normal; it
    lies in a lower binade than [15.0], or in the same binade with a smaller
    mantissa. *)
Lemma mul_fifteen_finite m e :
  Z.pos (digits2_pos m) = 53 → -1022 ≤ e ≤ -53 →
  ∃ m' e',
    mul (S754_finite false m e) fifteen = S754_finite false m' e'
    ∧ Z.pos (digits2_pos m') = 53
    ∧ -1074 ≤ e' ≤ -49
    ∧ (e' = -49 → Z.pos m' < 8444249301319680).
Proof.
  intros Hd He. unfold mul. rewrite fifteen_eq. cbn [SFmul xorb].
  pose proof (digits2_pos_bounds m) as Hm. rewrite Hd in Hm.
  change (2 ^ (53 - 1)) with 4503599627370496 in Hm.
  change (2 ^ 53) with 9007199254740992 in Hm.
  set (M := (m * 8444249301319680)%positive).
  assert (Z.pos M = Z.pos m * 8444249301319680) as HM by (unfold M; lia).
  assert (Z.pos (digits2_pos M) = 105 ∨ Z.pos (digits2_pos M) = 106) as HD.
  { destruct (Z.lt_ge_cases (Z.pos M) (2 ^ 105)) as [Hlt | Hge].
    - left. apply digits2_pos_unique. split; [| exact Hlt].
      change (2 ^ (105 - 1)) with 20282409603651670423947251286016. lia.
    - right. apply digits2_pos_unique. split; [exact Hge |].
      change (2 ^ 106) with 81129638414606681695789005144064. lia. }
  unfold binary_round_aux.
  (* the first shift drops 52 or 53 bits *)
  assert (∃ p : positive, (p = 52 ∨ p = 53)%positive
            ∧ Z.pos (digits2_pos M) = 53 + Z.pos p
            ∧ shr_fexp prec emax (Z.pos M) (e + -49) loc_Exact =
               shr (shr_record_of_loc (Z.pos M) loc_Exact) (e + -49) (Z.pos p))
    as (p & Hp & HDp & Hshr).
  { unfold shr_fexp. cbn [Zdigits2]. rewrite fexp_eq.
    destruct HD as [HD | HD]; rewrite HD.
    - exists 52%positive. split; [by left |]. split; [done |].
      f_equal. lia.
    - exists 53%positive. split; [by right |]. split; [done |].
      f_equal. lia. }
  rewrite Hshr. pose proof (shr_shifted (Z.pos M) (e + -49) p) as Hsh.
  destruct (shr (shr_record_of_loc (Z.pos M) loc_Exact) (e + -49) (Z.pos p))
    as [mrs e1].
  destruct Hsh as [[Hq Hr] He1]; [lia |].
  pose proof (round_nearest_even_cases mrs) as Hround. cbv zeta in Hround.
  set (m1 := round_nearest_even (shr_m mrs) (loc_of_shr_record mrs)) in *.
  pose proof (digits2_pos_bounds M) as HMb.
  assert (0 < 2 ^ Z.pos p) as Hpow by (apply Z.pow_pos_nonneg; lia).
  pose proof (Z.div_mod (Z.pos M) (2 ^ Z.pos p) ltac:(lia)) as Hdm.
  pose proof (Z.mod_pos_bound (Z.pos M) (2 ^ Z.pos p) Hpow) as Hrem.
  rewrite <- Hq in Hdm.
  set (rem := Z.pos M mod 2 ^ Z.pos p) in *.
  clearbody rem. clear Hq.
  assert (4503599627370496 ≤ shr_m mrs < 9007199254740992) as Hqb.
  { rewrite HDp in HMb.
    replace (53 + Z.pos p - 1) with (52 + Z.pos p) in HMb by lia.
    rewrite !Z.pow_add_r in HMb by lia.
    change (2 ^ 52) with 4503599627370496 in HMb.
    change (2 ^ 53) with 9007199254740992 in HMb.
    nia. }
  destruct (Z.eq_dec m1 9007199254740992) as [Hcarry | Hnocarry].
  - (* the mantissa was rounded up to 2^53: one more shift *)
    rewrite Hcarry.
    assert (shr_fexp prec emax 9007199254740992 e1 loc_Exact =
            ({| shr_m := 4503599627370496; shr_r := false; shr_s := false |},
             e1 + 1)) as ->.
    { unfold shr_fexp. change (Zdigits2 9007199254740992) with 54.
      rewrite fexp_eq.
      replace (Z.max (54 + e1 - 53) (-1074) - e1) with 1 by lia.
      reflexivity. }
    cbn [shr_m].
    replace (e1 + 1 <=? emax - prec) with true
      by (symmetry; apply Z.leb_le; unfold emax, prec; lia).
    exists 4503599627370496%positive, (e1 + 1).
    split; [done |]. split; [done |].
    destruct Hround as [Hsame | [Hup Hbit]]; [lia |].
    specialize (Hr Hbit).
    destruct Hp as [-> | ->].
    + change (2 ^ 52) with 4503599627370496 in *. lia.
    + change (2 ^ 53) with 9007199254740992 in *. lia.
  - assert (4503599627370496 ≤ m1 < 9007199254740992) as Hm1
      by (destruct Hround as [Hsame | [Hup Hbit]]; lia).
    destruct m1 as [|pm|pm] eqn:Hpm; [lia | | lia].
    assert (Z.pos (digits2_pos pm) = 53) as Hdpm.
    { apply digits2_pos_unique.
      change (2 ^ (53 - 1)) with 4503599627370496.
      change (2 ^ 53) with 9007199254740992. lia. }
    rewrite shr_fexp_canonical by (done || lia). cbn [shr_m].
    replace (e1 <=? emax - prec) with true
      by (symmetry; apply Z.leb_le; unfold emax, prec; lia).
    exists pm, e1. split; [done |]. split; [done |].
    destruct Hp as [-> | ->].
    + split; [lia |]. intros ->. lia.
    + change (2 ^ 53) with 9007199254740992 in *.
      split; [lia |]. intros He49.
      destruct Hround as [Hsame | [Hup Hbit]]; [lia |].
      specialize (Hr Hbit). lia.
Qed.

(** *** Comparison and validity *)

Lemma ltb_finite_pos m e m' e' :
  e < e' ∨ (e = e' ∧ Z.pos m < Z.pos m') →
  ltb (S754_finite false m e) (S754_finite false m' e') = true.
Proof.
  intros H. unfold ltb, SFltb, SFcompare.
  destruct (Z.compare_spec e e') as [Heq | Hlt | Hgt]; [| reflexivity | lia].
  destruct H as [H | [_ H]]; [lia |].
  unfold Z.lt in H. cbn [Z.compare] in H. unfold Pos.compare in H.
  rewrite H. reflexivity.
Qed.

Lemma valid_normal s m e :
  Z.pos (digits2_pos m) = 53 → -1074 ≤ e ≤ 971 →
  valid (S754_finite s m e) = true.
Proof.
  intros Hd He. unfold valid, valid_binary, bounded, canonical_mantissa.
  rewrite Hd, fexp_eq.
  apply andb_true_iff. split; [apply Z.eqb_eq; lia |].
  apply Z.leb_le. unfold emax, prec. lia.
Qed.

(** A double [k / 2^53] of [random_sample], times [15.0]. *)
Lemma mul_fifteen_range k :
  0 ≤ k < 2 ^ 53 → in_0_15 (mul (unit_double k) fifteen).
Proof.
  intros Hk.
  destruct (unit_double_cases k Hk) as [[_ Hz] | (m & e & Hf & Hd & He & _)].
  - rewrite Hz. unfold in_0_15. rewrite fifteen_eq. repeat split.
  - destruct (mul_fifteen_finite m e Hd ltac:(lia))
      as (m' & e' & Hmul & Hd' & He' & Hlt).
    rewrite Hf, Hmul. unfold in_0_15. split; [reflexivity |]. split.
    + rewrite fifteen_eq. apply ltb_finite_pos.
      destruct (Z.eq_dec e' (-49)) as [Heq | Hne]; [right | left; lia].
      split; [exact Heq | exact (Hlt Heq)].
    + apply valid_normal; [exact Hd' | lia].
Qed.

End Float64Facts.

(** ** Doubling a frame *)

Lemma zip_with_diag {A B} (f : A → A → B) (l : list A) :
  zip_with f l l = (λ x, f x x) <$> l.
Proof. induction l as [|x l IH]; simpl; [done | by rewrite IH]. Qed.

Lemma concat_frames_self d : concat_frames d d true = inr (dup d).
Proof.
  unfold concat_frames. rewrite bool_decide_eq_true_2 by done.
  by rewrite zip_with_diag.
Qed.

Lemma length_RangeIndex n : length (RangeIndex n) = n.
Proof. unfold RangeIndex. by rewrite length_fmap, length_seq. Qed.

Lemma nrows_dup d : nrows (dup d) = (nrows d + nrows d)%nat.
Proof. unfold nrows at 1. simpl. apply length_RangeIndex. Qed.

Lemma nrows_iter_dup n d :
  nrows (Nat.iter n dup d) = (nrows d * 2 ^ n)%nat.
Proof.
  induction n as [|n IH]; simpl; [lia |].
  rewrite nrows_dup, IH. lia.
Qed.

Lemma column_labels_dup d : column_labels (dup d) = column_labels d.
Proof.
  unfold column_labels, dup. simpl. rewrite <- list_fmap_compose.
  by apply list_fmap_ext.
Qed.

Lemma well_formed_dup d : well_formed d → well_formed (dup d).
Proof.
  unfold well_formed. rewrite nrows_dup. simpl. intros Hwf.
  apply Forall_fmap. eapply Forall_impl; [exact Hwf |].
  intros [c vs] Hlen. simpl in *. rewrite length_app. lia.
Qed.

Lemma well_formed_iter_dup n d :
  well_formed d → well_formed (Nat.iter n dup d).
Proof. intros Hwf. induction n; simpl; [done | by apply well_formed_dup]. Qed.

(** In a well-formed frame the second half of the doubled frame repeats the
    rows of the first half, which are the rows of the frame itself. *)
Lemma row_dup_l d i : (i < nrows d)%nat → well_formed d → row (dup d) i = row d i.
Proof.
  intros Hi Hwf. unfold row, dup. simpl. rewrite <- list_fmap_compose.
  apply Forall_fmap_ext_1. eapply Forall_impl; [exact Hwf |].
  intros [c vs] Hlen. simpl in *. f_equal. apply lookup_app_l. lia.
Qed.

Lemma row_dup_r d i : well_formed d → row (dup d) (nrows d + i) = row d i.
Proof.
  intros Hwf. unfold row, dup. simpl. rewrite <- list_fmap_compose.
  apply Forall_fmap_ext_1. eapply Forall_impl; [exact Hwf |].
  intros [c vs] Hlen. simpl in *. f_equal.
  rewrite lookup_app_r by lia. f_equal. lia.
Qed.

Lemma rows_dup d : well_formed d → rows (dup d) = rows d ++ rows d.
Proof.
  intros Hwf. unfold rows. rewrite nrows_dup, seq_app, fmap_app. f_equal.
  - apply Forall_fmap_ext_1, Forall_forall. intros i Hi.
    apply elem_of_seq in Hi. apply row_dup_l; [lia | done].
  - replace (seq (0 + nrows d) (nrows d))
      with (Nat.add (nrows d) <$> seq 0 (nrows d))
      by (rewrite fmap_add_seq; f_equal; lia).
    rewrite <- list_fmap_compose.
    apply list_fmap_ext. intros _ i _. simpl. by apply row_dup_r.
Qed.

Lemma rows_iter_dup_prefix n d :
  well_formed d → rows d `prefix_of` rows (Nat.iter n dup d).
Proof.
  intros Hwf. induction n as [|n IH]; simpl; [done |].
  rewrite rows_dup by by apply well_formed_iter_dup.
  etrans; [exact IH | by apply prefix_app_r].
Qed.

Lemma rows_iter_dup_elem n d r :
  well_formed d → r ∈ rows (Nat.iter n dup d) → r ∈ rows d.
Proof.
  intros Hwf. induction n as [|n IH]; simpl; [done |].
  rewrite rows_dup by by apply well_formed_iter_dup.
  rewrite elem_of_app. tauto.
Qed.

(** ** Assigning a column *)

Lemma count_label_columns c d :
  count_label c d = length (filter (λ e, e.1 = c) (columns d)).
Proof.
  unfold count_label, column_labels.
  induction (columns d) as [|[c0 vs0] l IH]; [done |].
  rewrite fmap_cons, !filter_cons. simpl.
  destruct (decide (c0 = c)); simpl; by rewrite IH.
Qed.

(** *** The whole array into the column *)

Lemma column_labels_set_item c arr d :
  column_labels (set_item c arr d)
  = column_labels d ++ (if bool_decide (c ∈ column_labels d) then [] else [c]).
Proof.
  unfold set_item, column_labels at 1. simpl.
  destruct (bool_decide (c ∈ column_labels d)).
  - rewrite app_nil_r, <- list_fmap_compose. apply list_fmap_ext.
    intros _ [c0 vs0] _. simpl. by case_bool_decide.
  - by rewrite fmap_app.
Qed.

Lemma columns_set_item_other (P : string → Prop) `{!∀ l, Decision (P l)}
  c arr d :
  ¬ P c →
  filter (λ e, P e.1) (columns (set_item c arr d))
  = filter (λ e, P e.1) (columns d).
Proof.
  intros Hc. unfold set_item. simpl. case_bool_decide as Hin.
  - clear Hin. induction (columns d) as [|[c0 vs0] l IH]; [done |].
    rewrite fmap_cons, !filter_cons, IH. simpl.
    case_bool_decide as Hc0; simpl; [| done].
    subst c0. by rewrite !decide_False.
  - rewrite filter_app, filter_cons, filter_nil. simpl.
    rewrite decide_False by done. by rewrite app_nil_r.
Qed.

Lemma columns_set_item_eq c arr d :
  filter (λ e, e.1 = c) (columns (set_item c arr d))
  = replicate (Nat.max 1 (count_label c d)) (c, arr).
Proof.
  rewrite count_label_columns. unfold set_item. simpl.
  case_bool_decide as Hin.
  - assert (0 < length (filter (λ e, e.1 = c) (columns d)))%nat as Hpos.
    { apply list_elem_of_fmap in Hin as ([c0 vs0] & -> & Hel).
      assert ((c0, vs0) ∈ filter (λ e, e.1 = c0) (columns d)) as Hf
        by by apply list_elem_of_filter.
      destruct (filter _ (columns d)); [by apply elem_of_nil in Hf |].
      simpl. lia. }
    rewrite Nat.max_r by lia. clear Hin Hpos.
    induction (columns d) as [|[c0 vs0] l IH]; [done |].
    rewrite fmap_cons, !filter_cons. simpl.
    case_bool_decide as Hc0; simpl.
    + rewrite !decide_True by done. simpl. by rewrite IH.
    + by rewrite !decide_False by done.
  - assert (filter (λ e, e.1 = c) (columns d) = []) as Hnone.
    { destruct (filter (λ e, e.1 = c) (columns d)) as [|[c0 vs0] l] eqn:Hf;
        [done |].
      assert ((c0, vs0) ∈ filter (λ e, e.1 = c) (columns d)) as Hel
        by (rewrite Hf; left).
      apply list_elem_of_filter in Hel as [Hc0 Hel]. simpl in Hc0. subst c0.
      destruct Hin. apply list_elem_of_fmap. by exists (c, vs0). }
    rewrite filter_app, Hnone, filter_cons, filter_nil. simpl.
    by rewrite decide_True.
Qed.

Lemma well_formed_set_item c arr d :
  length arr = nrows d → well_formed d → well_formed (set_item c arr d).
Proof.
  unfold well_formed. intros Hlen Hwf. unfold set_item at 1. simpl.
  change (nrows (set_item c arr d)) with (nrows d).
  case_bool_decide.
  - apply Forall_fmap. eapply Forall_impl; [exact Hwf |].
    intros [c0 vs0] Hc. simpl in *. by case_bool_decide.
  - apply Forall_app. split; [done |]. by constructor.
Qed.

(** *** One value into each column of a repeated label *)

Lemma spread_labels c n arr cols : (spread c n arr cols).*1 = cols.*1.
Proof.
  revert arr. induction cols as [|[c0 vs0] cols IH]; intros arr; [done |].
  simpl. case_bool_decide as Hc0; simpl in *.
  - subst c0. destruct arr; simpl; by rewrite IH.
  - by rewrite IH.
Qed.

Lemma spread_filter_other (P : string → Prop) `{!∀ l, Decision (P l)}
  c n arr cols :
  ¬ P c →
  filter (λ e, P e.1) (spread c n arr cols) = filter (λ e, P e.1) cols.
Proof.
  intros Hc. revert arr.
  induction cols as [|[c0 vs0] cols IH]; intros arr; [done |].
  simpl. case_bool_decide as Hc0; simpl in *.
  - subst c0. destruct arr; rewrite !filter_cons; simpl;
      rewrite !decide_False by done; apply IH.
  - rewrite !filter_cons. simpl. by rewrite IH.
Qed.

Lemma spread_filter_eq c n arr cols :
  length (filter (λ e, e.1 = c) cols) = length arr →
  filter (λ e, e.1 = c) (spread c n arr cols)
  = (λ x, (c, replicate n x)) <$> arr.
Proof.
  revert arr. induction cols as [|[c0 vs0] cols IH]; intros arr.
  - simpl. by destruct arr.
  - simpl. rewrite filter_cons. simpl. case_bool_decide as Hc0; simpl.
    + subst c0. rewrite decide_True by done. destruct arr as [|x arr];
        [done |].
      simpl. intros [= Hlen]. rewrite filter_cons, decide_True by done.
      simpl. by rewrite IH.
    + rewrite decide_False by done. intros Hlen.
      rewrite filter_cons, decide_False by done. by apply IH.
Qed.

Lemma spread_lengths c n arr cols :
  Forall (λ e, length e.2 = n) cols →
  Forall (λ e, length e.2 = n) (spread c n arr cols).
Proof.
  intros Hwf. revert arr.
  induction Hwf as [|[c0 vs0] cols H0 Hwf IH]; intros arr; [constructor |].
  simpl. case_bool_decide as Hc0; simpl in *.
  - destruct arr; constructor; simpl; auto using length_replicate.
  - constructor; auto.
Qed.

(** *** [df[c] = arr] *)

Lemma nrows_set_column c arr d : nrows (set_column c arr d) = nrows d.
Proof. unfold set_column. by destruct (repeated_key c arr d). Qed.

Lemma repeated_key_elem_of c arr d :
  repeated_key c arr d = true → c ∈ column_labels d.
Proof.
  unfold repeated_key, count_label. intros [Hk _]%bool_decide_eq_true.
  destruct (filter (λ l, l = c) (column_labels d)) as [|l ls] eqn:Hf;
    [simpl in Hk; lia |].
  assert (l ∈ filter (λ l, l = c) (column_labels d)) as Hl
    by (rewrite Hf; left).
  by apply list_elem_of_filter in Hl as [-> Hl].
Qed.

Lemma column_labels_set_column c arr d :
  column_labels (set_column c arr d)
  = column_labels d ++ (if bool_decide (c ∈ column_labels d) then [] else [c]).
Proof.
  unfold set_column. destruct (repeated_key c arr d) eqn:Hrep.
  - apply repeated_key_elem_of in Hrep.
    rewrite bool_decide_eq_true_2, app_nil_r by done.
    apply spread_labels.
  - apply column_labels_set_item.
Qed.

Lemma column_labels_set_column_new c arr d :
  c ∈ column_labels (set_column c arr d).
Proof.
  rewrite column_labels_set_column, elem_of_app.
  case_bool_decide; [by left | right; apply list_elem_of_here].
Qed.

Lemma column_labels_set_column_old c arr d c' :
  c' ∈ column_labels d → c' ∈ column_labels (set_column c arr d).
Proof. rewrite column_labels_set_column, elem_of_app. by left. Qed.

Lemma count_label_set_column_other c arr d c' :
  c' ≠ c → count_label c' (set_column c arr d) = count_label c' d.
Proof.
  intros Hne. unfold count_label.
  rewrite column_labels_set_column, filter_app.
  case_bool_decide; rewrite ?filter_cons, ?filter_nil, ?app_nil_r; [done |].
  rewrite decide_False by done. by rewrite app_nil_r.
Qed.

(** The columns with another label stay, in their order. *)
Lemma columns_set_column_other (P : string → Prop) `{!∀ l, Decision (P l)}
  c arr d :
  ¬ P c →
  filter (λ e, P e.1) (columns (set_column c arr d))
  = filter (λ e, P e.1) (columns d).
Proof.
  intros Hc. unfold set_column. destruct (repeated_key c arr d).
  - by apply spread_filter_other.
  - by apply columns_set_item_other.
Qed.

(** The columns with the label are the assigned ones. *)
Lemma columns_set_column_eq c arr d :
  filter (λ e, e.1 = c) (columns (set_column c arr d))
  = assigned c arr (count_label c d) (nrows d).
Proof.
  unfold set_column, assigned, repeated_key.
  case_bool_decide as Hrep.
  - simpl. apply spread_filter_eq. rewrite <- count_label_columns. tauto.
  - apply columns_set_item_eq.
Qed.

(** Writing a position column leaves the rest of the frame as it is: the
    index, and the other columns with their order and cells. *)
Lemma drop_positions_set_column c arr d :
  is_position c = true →
  drop_positions (set_column c arr d) = drop_positions d.
Proof.
  intros Hpos. unfold drop_positions. f_equal.
  - unfold set_column. by destruct (repeated_key c arr d).
  - assert (¬ is_position c = false) as Hc by by rewrite Hpos.
    exact (columns_set_column_other (λ l, is_position l = false) c arr d Hc).
Qed.

Lemma well_formed_set_column c arr d :
  length arr = nrows d → well_formed d → well_formed (set_column c arr d).
Proof.
  intros Hlen Hwf. unfold set_column. destruct (repeated_key c arr d).
  - unfold well_formed. simpl. by apply spread_lengths.
  - by apply well_formed_set_item.
Qed.

Lemma elem_of_assigned c arr k n e :
  e ∈ assigned c arr k n →
  e.1 = c
  ∧ ((¬ (1 < k ∧ k = length arr)%nat ∧ e.2 = arr)
     ∨ ((1 < k ∧ k = length arr)%nat
        ∧ ∃ i x, arr !! i = Some x ∧ e.2 = replicate n x)).
Proof.
  unfold assigned. case_bool_decide as Hrep.
  - intros (x & -> & Hx)%list_elem_of_fmap. split; [done |]. right.
    split; [done |]. apply list_elem_of_lookup in Hx as [i Hi]. by exists i, x.
  - intros ->%elem_of_replicate_inv. split; [done |]. by left.
Qed.

(** ** Frames without their position columns *)

Lemma nrows_drop_positions d : nrows (drop_positions d) = nrows d.
Proof. done. Qed.

Lemma well_formed_drop_positions d :
  well_formed d → well_formed (drop_positions d).
Proof.
  unfold well_formed. rewrite nrows_drop_positions. simpl. intros Hwf.
  apply Forall_forall. intros c [_ Hc]%list_elem_of_filter.
  by eapply Forall_forall in Hwf.
Qed.

Lemma drop_positions_dup d : drop_positions (dup d) = dup (drop_positions d).
Proof.
  unfold drop_positions, dup. simpl. f_equal.
  induction (columns d) as [|[c vs] l IH]; [done |].
  rewrite fmap_cons, !filter_cons, IH. simpl.
  by destruct (decide (is_position c = false)).
Qed.

Lemma drop_positions_iter_dup n d :
  drop_positions (Nat.iter n dup d) = Nat.iter n dup (drop_positions d).
Proof.
  induction n as [|n IH]; simpl; [done |].
  by rewrite drop_positions_dup, IH.
Qed.

(** ** The interpreter *)

Section InterpFacts.

Context {G : Type} `{!BitGenerator G}.
Implicit Types (w : World G) (d : DataFrame) (r df : loc) (g : G).

Lemma length_random_doubles n g : length (random_doubles n g).1 = n.
Proof.
  revert g. induction n as [|n IH]; intros g; simpl; [done |].
  destruct (random_double g) as [x g1].
  specialize (IH g1). destruct (random_doubles n g1) as [xs g2].
  simpl in *. by rewrite IH.
Qed.

Lemma length_ndarray_mul (arr : list spec_float) k :
  length (ndarray_mul arr k) = length arr.
Proof. unfold ndarray_mul. by rewrite length_fmap. Qed.

Lemma fresh_heap w : heap w !! fresh (dom (heap w)) = None.
Proof. apply not_elem_of_dom, is_fresh. Qed.

Lemma DataFrame_copy_spec w df d :
  heap w !! df = Some d →
  DataFrame_copy df w =
    (inr (fresh (dom (heap w))),
     {| heap := <[fresh (dom (heap w)) := d]> (heap w); rng := rng w |}).
Proof.
  intros Hdf. unfold DataFrame_copy, mbind, M_bind, deref. by rewrite Hdf.
Qed.

Lemma DataFrame_append_self_spec w r d :
  heap w !! r = Some d →
  DataFrame_append r r true w =
    (inr (fresh (dom (heap w))),
     {| heap := <[fresh (dom (heap w)) := dup d]> (heap w);
        rng := rng w |}).
Proof.
  intros Hr. unfold DataFrame_append, mbind, M_bind, deref.
  rewrite Hr. simpl. rewrite Hr. simpl. by rewrite concat_frames_self.
Qed.

(** The loop: [n] rounds on the frame bound to [r]. *)
Lemma for_loop_append_spec n i w r d :
  heap w !! r = Some d →
  ∃ r' w',
    for_loop n i (λ _ c, DataFrame_append c c true) r w = (inr r', w')
    ∧ heap w' !! r' = Some (Nat.iter n dup d)
    ∧ rng w' = rng w
    ∧ heap w ⊆ heap w'
    ∧ (r' = r ∨ heap w !! r' = None).
Proof.
  revert i w r d. induction n as [|n IH]; intros i w r d Hr.
  - exists r, w. simpl. do 4 (split; [done |]). by left.
  - pose proof (fresh_heap w) as Hfresh.
    set (r1 := fresh (dom (heap w))) in *.
    set (w1 := {| heap := <[r1 := dup d]> (heap w); rng := rng w |}).
    destruct (IH (i + 1) w1 r1 (dup d)) as (r' & w' & Hrun & Hr' & Hg & Hsub & Hnew).
    { apply lookup_insert_eq. }
    exists r', w'. simpl. unfold mbind, M_bind.
    rewrite (DataFrame_append_self_spec w r d Hr). fold r1 w1.
    assert (heap w ⊆ heap w1) as Hsub1 by by apply insert_subseteq.
    split; [exact Hrun |]. split; [by rewrite Hr', <- Nat.iter_succ_r |].
    split; [done |]. split; [by etrans |].
    right. destruct Hnew as [-> | Hnone]; [done |].
    eapply lookup_weaken_None; [exact Hnone | exact Hsub1].
Qed.

Lemma inflate_spec w df d times :
  heap w !! df = Some d →
  ∃ r w',
    inflate df times w = (inr r, w')
    ∧ heap w' !! r = Some (Nat.iter (Z.to_nat times) dup d)
    ∧ rng w' = rng w
    ∧ heap w ⊆ heap w'
    ∧ heap w !! r = None.
Proof.
  intros Hdf. pose proof (fresh_heap w) as Hfresh.
  set (r0 := fresh (dom (heap w))) in *.
  set (w0 := {| heap := <[r0 := d]> (heap w); rng := rng w |}).
  destruct (for_loop_append_spec (Z.to_nat times) 0 w0 r0 d)
    as (r & w' & Hrun & Hr & Hg & Hsub & Hnew).
  { apply lookup_insert_eq. }
  assert (heap w ⊆ heap w0) as Hsub0 by by apply insert_subseteq.
  exists r, w'. unfold inflate, mbind, M_bind, for_range.
  rewrite (DataFrame_copy_spec w df d Hdf). fold r0 w0.
  split; [exact Hrun |]. split; [done |]. split; [done |].
  split; [by etrans |]. destruct Hnew as [-> | Hnone]; [done |].
  eapply lookup_weaken_None; [exact Hnone | exact Hsub0].
Qed.

Lemma DataFrame_setitem_spec w df c arr d :
  heap w !! df = Some d → length arr = nrows d →
  DataFrame_setitem df c arr w =
    (inr (),
     {| heap := <[df := set_column c (SFloat <$> arr) d]> (heap w);
        rng := rng w |}).
Proof.
  intros Hdf Hlen. unfold DataFrame_setitem, mbind, M_bind, deref.
  rewrite Hdf. simpl. unfold set_column.
  destruct (repeated_key c (SFloat <$> arr) d); [done |].
  by rewrite bool_decide_eq_true_2.
Qed.

Lemma assign_positions_spec w r d :
  heap w !! r = Some d →
  assign_positions r w =
    (inr r,
     {| heap := <[r := positioned d (rng w)]> (heap w);
        rng := (random_doubles (nrows d)
                  (random_doubles (nrows d) (rng w)).2).2 |}).
Proof.
  intros Hr. unfold positioned.
  pose proof (length_random_doubles (nrows d) (rng w)) as Hx.
  destruct (random_doubles (nrows d) (rng w)) as [xs g1] eqn:Hxs.
  pose proof (length_random_doubles (nrows d) g1) as Hy.
  destruct (random_doubles (nrows d) g1) as [ys g2] eqn:Hys.
  simpl in *.
  set (w2 := {| heap := heap w; rng := g2 |}).
  assert (heap w2 !! r = Some d) as Hr2 by done.
  pose proof (DataFrame_setitem_spec w2 r "ra"
                (ndarray_mul xs Float64.fifteen) d Hr2
                ltac:(by rewrite length_ndarray_mul)) as Hra.
  match type of Hra with _ = (_, ?w) => set (w3 := w) in * end.
  assert (heap w3 !! r
          = Some (set_column "ra"
                    (SFloat <$> ndarray_mul xs Float64.fifteen) d)) as Hr3
    by apply lookup_insert_eq.
  pose proof (DataFrame_setitem_spec w3 r "dec"
                (ndarray_mul ys Float64.fifteen) _ Hr3
                ltac:(by rewrite nrows_set_column, length_ndarray_mul))
    as Hdec.
  cbv [assign_positions mbind M_bind DataFrame_shape0 deref
    random_sample mret M_ret].
  rewrite Hr. simpl. rewrite Hxs. simpl. rewrite Hys. simpl.
  fold w2. rewrite Hra, Hdec. unfold w3. simpl.
  by rewrite insert_insert_eq.
Qed.

(** [overPop] is its two phases in sequence. *)
Lemma overPop_phases df times w :
  overPop df times w = (r ← inflate df times; assign_positions r) w.
Proof.
  unfold overPop, inflate, assign_positions, mbind, M_bind.
  destruct (DataFrame_copy df w) as [[e | r0] w0]; [done |].
  by destruct (for_range _ _ r0 w0) as [[e | r] w1].
Qed.

Lemma overPop_spec w df d times :
  heap w !! df = Some d →
  ∃ r w1,
    inflate df times w = (inr r, w1)
    ∧ heap w1 !! r = Some (Nat.iter (Z.to_nat times) dup d)
    ∧ rng w1 = rng w
    ∧ heap w ⊆ heap w1
    ∧ heap w !! r = None
    ∧ overPop df times w =
        (inr r,
         {| heap := <[r := positioned (Nat.iter (Z.to_nat times) dup d)
                             (rng w)]> (heap w1);
            rng := (random_doubles (nrows d * 2 ^ Z.to_nat times)
                      (random_doubles (nrows d * 2 ^ Z.to_nat times)
                         (rng w)).2).2 |}).
Proof.
  intros Hdf.
  destruct (inflate_spec w df d times Hdf)
    as (r & w1 & Hrun & Hr & Hg & Hsub & Hnew).
  exists r, w1. repeat (split; [done |]).
  rewrite overPop_phases. unfold mbind, M_bind. rewrite Hrun.
  rewrite (assign_positions_spec w1 r _ Hr).
  by rewrite Hg, nrows_iter_dup.
Qed.

(** *** The random positions *)

Lemma random_double_unit g :
  ∃ k, 0 ≤ k < 2 ^ 53 ∧ (random_double g).1 = Float64.unit_double k.
Proof.
  unfold random_double.
  destruct (next_uint32 g) as [a g1]. destruct (next_uint32 g1) as [b g2].
  eexists. split; [| reflexivity].
  rewrite !Z.shiftr_div_pow2 by lia.
  change (2 ^ 32) with 4294967296. change (2 ^ 5) with 32.
  change (2 ^ 6) with 64. change (2 ^ 53) with 9007199254740992.
  Z.div_mod_to_equations. lia.
Qed.

Lemma random_doubles_unit n g :
  Forall (λ x, ∃ k, 0 ≤ k < 2 ^ 53 ∧ x = Float64.unit_double k)
    (random_doubles n g).1.
Proof.
  revert g. induction n as [|n IH]; intros g; simpl; [constructor |].
  pose proof (random_double_unit g) as Hx.
  destruct (random_double g) as [x g1].
  specialize (IH g1). destruct (random_doubles n g1) as [xs g2].
  simpl in *. by constructor.
Qed.

Lemma random_positions_in_range n g :
  Forall Float64.in_0_15
    (ndarray_mul (random_doubles n g).1 Float64.fifteen).
Proof.
  unfold ndarray_mul. apply Forall_fmap.
  eapply Forall_impl; [apply random_doubles_unit |].
  intros x (k & Hk & ->). simpl.
  by apply Float64Facts.mul_fifteen_range.
Qed.

(** *** The stream of the generator *)

Lemma skip_words_add n m g :
  skip_words m (skip_words n g) = skip_words (n + m) g.
Proof. unfold skip_words. by rewrite Nat.add_comm, Nat.iter_add. Qed.

Lemma random_double_state g : (random_double g).2 = skip_words 2 g.
Proof.
  unfold random_double, skip_words. simpl.
  destruct (next_uint32 g) as [a g1]. simpl.
  by destruct (next_uint32 g1) as [b g2].
Qed.

Lemma random_doubles_state n g :
  (random_doubles n g).2 = skip_words (2 * n) g.
Proof.
  revert g. induction n as [|n IH]; intros g; [done |].
  cbn [random_doubles].
  pose proof (random_double_state g) as Hx.
  destruct (random_double g) as [x g1]. cbn [snd] in Hx. subst g1.
  specialize (IH (skip_words 2 g)).
  destruct (random_doubles n (skip_words 2 g)) as [xs g2]. cbn [snd] in *.
  rewrite IH, skip_words_add. f_equal. lia.
Qed.

Lemma random_doubles_app n m g :
  (random_doubles (n + m) g).1
  = (random_doubles n g).1 ++ (random_doubles m (random_doubles n g).2).1
  ∧ (random_doubles (n + m) g).2
    = (random_doubles m (random_doubles n g).2).2.
Proof.
  revert g. induction n as [|n IH]; intros g; simpl; [done |].
  destruct (random_double g) as [x g1]. specialize (IH g1).
  destruct (random_doubles (n + m) g1) as [xs g2].
  destruct (random_doubles n g1) as [xs1 g3]. simpl in *.
  destruct IH as [-> ->]. done.
Qed.

Lemma word_skip i n g : word i (skip_words n g) = word (n + i) g.
Proof. unfold word. by rewrite skip_words_add. Qed.

Lemma draw_skip i n g : draw i (skip_words (2 * n) g) = draw (n + i) g.
Proof.
  unfold draw. rewrite !word_skip.
  by replace (2 * n + 2 * i)%nat with (2 * (n + i))%nat by lia;
     replace (2 * n + (2 * i + 1))%nat with (2 * (n + i) + 1)%nat by lia.
Qed.

Lemma random_double_draw g : (random_double g).1 = draw 0 g.
Proof.
  unfold random_double, draw, word, skip_words. simpl.
  destruct (next_uint32 g) as [a g1]. simpl.
  by destruct (next_uint32 g1) as [b g2].
Qed.

(** [random_sample] gives the draws in their order. *)
Lemma random_doubles_draws n g :
  (random_doubles n g).1 = (λ i, draw i g) <$> seq 0 n.
Proof.
  revert g. induction n as [|n IH]; intros g; [done |].
  cbn [random_doubles seq].
  pose proof (random_double_draw g) as H0.
  pose proof (random_double_state g) as H1.
  destruct (random_double g) as [x g1]. cbn [fst snd] in H0, H1. subst x g1.
  specialize (IH (skip_words 2 g)).
  destruct (random_doubles n (skip_words 2 g)) as [xs g2]. cbn [fst] in *.
  rewrite fmap_cons. f_equal. rewrite IH, <- fmap_S_seq, <- list_fmap_compose.
  apply list_fmap_ext. intros _ i _. simpl.
  apply (draw_skip i 1 g).
Qed.

Lemma drawn_first n g :
  SFloat <$> ndarray_mul (random_doubles n g).1 Float64.fifteen
  = drawn 0 n g.
Proof.
  unfold ndarray_mul, drawn. by rewrite random_doubles_draws,
    <- !list_fmap_compose.
Qed.

Lemma drawn_second n g :
  SFloat <$>
    ndarray_mul (random_doubles n (random_doubles n g).2).1 Float64.fifteen
  = drawn n n g.
Proof.
  rewrite random_doubles_state, drawn_first. unfold drawn.
  apply list_fmap_ext. intros _ i _. cbn beta. unfold position.
  by rewrite draw_skip, Nat.add_0_l.
Qed.

Lemma length_drawn first n g : length (drawn first n g) = n.
Proof. unfold drawn. by rewrite length_fmap, length_seq. Qed.

Lemma lookup_drawn first n g i :
  (i < n)%nat → drawn first n g !! i = Some (position (first + i) g).
Proof.
  intros Hi. unfold drawn. rewrite list_lookup_fmap, lookup_seq_lt by done.
  done.
Qed.

Lemma elem_of_drawn first n g v :
  v ∈ drawn first n g ↔ ∃ i, (i < n)%nat ∧ v = position (first + i) g.
Proof.
  unfold drawn. rewrite list_elem_of_fmap. split.
  - intros (i & -> & Hi%elem_of_seq). exists i. split; [lia | done].
  - intros (i & Hi & ->). exists i. split; [done |]. apply elem_of_seq. lia.
Qed.

Lemma position_skip i n g :
  position i (skip_words (2 * n) g) = position (n + i) g.
Proof. unfold position. by rewrite draw_skip. Qed.

Lemma drawn_skip first m n g :
  drawn first m (skip_words (2 * n) g) = drawn (n + first) m g.
Proof.
  unfold drawn. apply list_fmap_ext. intros _ i _. cbn beta.
  by rewrite position_skip, Nat.add_assoc.
Qed.

Lemma drawn_app first n m g :
  drawn first n g ++ drawn (first + n) m g = drawn first (n + m) g.
Proof.
  unfold drawn. rewrite seq_app, fmap_app. f_equal.
  replace (seq (0 + n) m) with (Nat.add n <$> seq 0 m)
    by (rewrite fmap_add_seq; f_equal; lia).
  rewrite <- list_fmap_compose.
  apply list_fmap_ext. intros _ i _. cbn. by rewrite Nat.add_assoc.
Qed.

Lemma draw_unit i g : ∃ k, 0 ≤ k < 2 ^ 53 ∧ draw i g = Float64.unit_double k.
Proof.
  unfold draw. eexists. split; [| reflexivity].
  rewrite !Z.shiftr_div_pow2 by lia.
  change (2 ^ 32) with 4294967296. change (2 ^ 5) with 32.
  change (2 ^ 6) with 64. change (2 ^ 53) with 9007199254740992.
  Z.div_mod_to_equations. lia.
Qed.

(** Every draw times [15.0] is a double in [[0, 15)]. *)
Lemma position_in_range i g :
  ∃ x, position i g = SFloat x ∧ Float64.in_0_15 x.
Proof.
  destruct (draw_unit i g) as (k & Hk & Hdraw).
  eexists. split; [reflexivity |]. rewrite Hdraw.
  by apply Float64Facts.mul_fifteen_range.
Qed.

(** *** The frame with its positions *)

Lemma index_set_column c arr d : index (set_column c arr d) = index d.
Proof. unfold set_column. by destruct (repeated_key c arr d). Qed.

Lemma index_positioned d g : index (positioned d g) = index d.
Proof. unfold positioned. by rewrite !index_set_column. Qed.

Lemma nrows_positioned d g : nrows (positioned d g) = nrows d.
Proof. unfold positioned. by rewrite !nrows_set_column. Qed.

Lemma positioned_drawn d g :
  positioned d g
  = set_column "dec" (drawn (nrows d) (nrows d) g)
      (set_column "ra" (drawn 0 (nrows d) g) d).
Proof. unfold positioned. cbv zeta. by rewrite drawn_second, drawn_first. Qed.

Lemma drop_positions_positioned d g :
  drop_positions (positioned d g) = drop_positions d.
Proof. unfold positioned. by rewrite !drop_positions_set_column. Qed.

Lemma column_labels_positioned d g :
  "ra"%string ∈ column_labels (positioned d g)
  ∧ "dec"%string ∈ column_labels (positioned d g).
Proof.
  unfold positioned. split.
  - apply column_labels_set_column_old, column_labels_set_column_new.
  - apply column_labels_set_column_new.
Qed.

(** The draw that the first cell of a position column comes from: [ra] is
    drawn first, [dec] after it. *)
Lemma is_position_cases c :
  is_position c = true → c = "ra"%string ∨ c = "dec"%string.
Proof.
  unfold is_position.
  intros [?%bool_decide_eq_true | ?%bool_decide_eq_true]%orb_true_iff; auto.
Qed.

(** The position columns of the frame are the assigned ones. *)
Lemma position_columns_eq d g c :
  is_position c = true →
  filter (λ e, e.1 = c) (columns (positioned d g))
  = assigned c
      (drawn (if bool_decide (c = "ra"%string) then 0 else nrows d)
         (nrows d) g)
      (count_label c d) (nrows d).
Proof.
  intros [-> | ->]%is_position_cases; rewrite positioned_drawn.
  - rewrite bool_decide_eq_true_2 by done.
    etrans; [| apply columns_set_column_eq].
    exact (columns_set_column_other (λ l, l = "ra"%string) "dec" _ _
             ltac:(done)).
  - rewrite bool_decide_eq_false_2 by done.
    rewrite columns_set_column_eq, nrows_set_column.
    by rewrite count_label_set_column_other.
Qed.

(** The same with the columns written out: one column with the whole array
    where the frame had none or one with the label, as many as the frame had
    otherwise, and with one draw each where it had one per row. *)
Lemma position_columns_filter d g c :
  is_position c = true →
  filter (λ e, e.1 = c) (columns (positioned d g))
  = if bool_decide (1 < count_label c d ∧ count_label c d = nrows d)%nat
    then (λ i, (c, replicate (nrows d)
                     (position
                        ((if bool_decide (c = "ra"%string)
                          then 0 else nrows d) + i) g)))
           <$> seq 0 (nrows d)
    else replicate (Nat.max 1 (count_label c d))
           (c, drawn (if bool_decide (c = "ra"%string) then 0 else nrows d)
                 (nrows d) g).
Proof.
  intros Hpos. rewrite (position_columns_eq d g c Hpos).
  unfold assigned. rewrite length_drawn.
  case_bool_decide; [| done]. unfold drawn.
  by rewrite <- list_fmap_compose.
Qed.

(** The same when [m] doubles have been drawn before. *)
Lemma position_columns_filter_skip d g c m :
  is_position c = true →
  filter (λ e, e.1 = c) (columns (positioned d (skip_words (2 * m) g)))
  = if bool_decide (1 < count_label c d ∧ count_label c d = nrows d)%nat
    then (λ i, (c, replicate (nrows d)
                     (position
                        (m + (if bool_decide (c = "ra"%string)
                              then 0 else nrows d) + i) g)))
           <$> seq 0 (nrows d)
    else replicate (Nat.max 1 (count_label c d))
           (c, drawn (m + (if bool_decide (c = "ra"%string)
                           then 0 else nrows d)) (nrows d) g).
Proof.
  intros Hpos. rewrite (position_columns_filter d _ c Hpos).
  case_bool_decide.
  - apply list_fmap_ext. intros _ i _. cbn beta.
    by rewrite position_skip, Nat.add_assoc.
  - by rewrite drawn_skip.
Qed.

(** The position columns of the frame hold the fresh draws and nothing of
    what was there before: the whole array, or, for a repeated label with as
    many columns as there are rows, one draw per column. *)
Lemma position_columns_positioned d g c vs :
  (c, vs) ∈ columns (positioned d g) → is_position c = true →
  length vs = nrows d
  ∧ (∀ v, v ∈ vs →
       ∃ i, (i < nrows d)%nat
            ∧ v = position
                    ((if bool_decide (c = "ra"%string) then 0 else nrows d)
                     + i) g)
  ∧ (¬ (1 < count_label c d ∧ count_label c d = nrows d)%nat →
     vs = drawn (if bool_decide (c = "ra"%string) then 0 else nrows d)
            (nrows d) g)
  ∧ ((1 < count_label c d ∧ count_label c d = nrows d)%nat →
     ∃ i, (i < nrows d)%nat
          ∧ vs = replicate (nrows d)
                   (position
                      ((if bool_decide (c = "ra"%string) then 0 else nrows d)
                       + i) g)).
Proof.
  intros Hel Hpos.
  set (first := if bool_decide (c = "ra"%string) then 0%nat else nrows d).
  assert ((c, vs) ∈ filter (λ e, e.1 = c) (columns (positioned d g))) as Hf
    by by apply list_elem_of_filter.
  rewrite (position_columns_eq d g c Hpos) in Hf. fold first in Hf.
  apply elem_of_assigned in Hf as [_ Hf]. simpl in Hf.
  rewrite length_drawn in Hf.
  destruct Hf as [[Hrep ->] | [Hrep (i & x & Hi & ->)]].
  - split; [apply length_drawn |]. split; [| split; [done |]].
    + intros v Hv. by apply elem_of_drawn.
    + intros Hrep'. by destruct Hrep.
  - assert (i < nrows d)%nat as Hlt.
    { apply lookup_lt_Some in Hi. by rewrite length_drawn in Hi. }
    rewrite lookup_drawn in Hi by done. injection Hi as <-.
    split; [apply length_replicate |]. split; [| split].
    + intros v ->%elem_of_replicate_inv. by exists i.
    + intros Hrep'. by destruct Hrep'.
    + intros _. by exists i.
Qed.

(** A position label that is not repeated has its column with the whole
    array. *)
Lemma elem_of_columns_positioned d g c :
  is_position c = true →
  ¬ (1 < count_label c d ∧ count_label c d = nrows d)%nat →
  (c, drawn (if bool_decide (c = "ra"%string) then 0 else nrows d)
        (nrows d) g)
  ∈ columns (positioned d g).
Proof.
  intros Hpos Hrep.
  set (first := if bool_decide (c = "ra"%string) then 0%nat else nrows d).
  assert ((c, drawn first (nrows d) g)
          ∈ filter (λ e, e.1 = c) (columns (positioned d g))) as Hf.
  { rewrite (position_columns_eq d g c Hpos). fold first. unfold assigned.
    rewrite length_drawn, bool_decide_eq_false_2 by done.
    apply elem_of_replicate. split; [done | lia]. }
  by apply list_elem_of_filter in Hf as [_ Hf].
Qed.

End InterpFacts.

(** ** Running the model *)

Module Runs.
Import Example.

(** One round of duplication on the two-row catalog: the copy is object 2,
    the doubled catalog is object 3, with rows labelled anew. *)
Example overPop_once : (overPop df0 1 w0).1 = inr 3%positive.
Proof. vm_compute. reflexivity. Qed.

Example overPop_once_frame :
  heap (overPop df0 1 w0).2 !! 3%positive
  = Some
      {| index := [SInt 0; SInt 1; SInt 2; SInt 3];
         columns :=
           [("objID", [SInt 11; SInt 22; SInt 11; SInt 22]);
            ("ra",
             [SFloat (S754_finite false 8523462277752431 (-51));
              SFloat (S754_finite false 4874706315749103 (-49));
              SFloat (S754_finite false 6344336697542226 (-50));
              SFloat (S754_finite false 7553909264707958 (-50))]);
            ("u",
             [SFloat (S754_finite false 5348024557502464 (-48));
              SFloat (S754_finite false 5910974510923776 (-48));
              SFloat (S754_finite false 5348024557502464 (-48));
              SFloat (S754_finite false 5910974510923776 (-48))]);
            ("dec",
             [SFloat (S754_finite false 7378700819159378 (-49));
              SFloat (S754_finite false 7204656528732301 (-49));
              SFloat (S754_finite false 5421216072138617 (-49));
              SFloat (S754_finite false 5036739485179585 (-49))])]%string |}.
Proof. vm_compute. reflexivity. Qed.

(** The row labels [5, 7] of the given catalog are kept by the copy and
    replaced by [0 .. 3] in the doubled catalog. *)
Example inflate_once_index :
  index <$> heap (inflate df0 1 w0).2 !! 2%positive = Some [SInt 5; SInt 7]
  ∧ index <$> heap (inflate df0 1 w0).2 !! 3%positive
    = Some [SInt 0; SInt 1; SInt 2; SInt 3].
Proof. split; vm_compute; reflexivity. Qed.

(** A negative count: the copy itself is returned, with positions. *)
Example overPop_minus_three :
  (overPop df0 (-3) w0).1 = inr 2%positive
  ∧ nrows <$> heap (overPop df0 (-3) w0).2 !! 2%positive = Some 2%nat.
Proof. split; vm_compute; reflexivity. Qed.

(** A catalog with two rows and two columns [ra]: each of the two columns
    gets one of the two draws, on both rows.  After a round of duplication
    there are four rows, and both columns get the array of four draws. *)
Example overPop_repeated_label :
  columns <$> heap (overPop df0 0 w_rep).2 !! 2%positive
  = Some [("ra", [position 0 42; position 0 42]);
          ("objID", [SInt 11; SInt 22]);
          ("ra", [position 1 42; position 1 42]);
          ("dec", [position 2 42; position 3 42])]%string
  ∧ columns <$> heap (overPop df0 1 w_rep).2 !! 3%positive
    = Some [("ra", drawn 0 4 42);
            ("objID", [SInt 11; SInt 22; SInt 11; SInt 22]);
            ("ra", drawn 0 4 42);
            ("dec", drawn 4 4 42)]%string.
Proof. split; vm_compute; reflexivity. Qed.

(** An array of the wrong length is refused. *)
Example setitem_wrong_length :
  (DataFrame_setitem df0 "ra" [Float64.zero] w0).1 = inl ValueError.
Proof. vm_compute. reflexivity. Qed.

(** The largest double that [random_sample] can give, [1 - 2^-53], times
    [15.0] is the double next below [15.0]. *)
Example largest_position :
  Float64.mul (Float64.unit_double (2 ^ 53 - 1)) Float64.fifteen
  = S754_finite false 8444249301319679 (-49)
  ∧ Float64.fifteen = S754_finite false 8444249301319680 (-49).
Proof. split; vm_compute; reflexivity. Qed.

(** [rk_double] computes its double in floating point,
    [(a * 67108864.0 + b) / 9007199254740992.0]; every step is exact, the
    result is [unit_double (a * 67108864 + b)]. *)
Example rk_double_arithmetic :
  let rk (a b : Z) :=
    SFdiv Float64.prec Float64.emax
      (SFadd Float64.prec Float64.emax
         (Float64.mul (Float64.of_Z a) (Float64.of_Z 67108864))
         (Float64.of_Z b))
      (Float64.of_Z 9007199254740992) in
  rk 134217727 67108863 = Float64.unit_double (2 ^ 53 - 1)
  ∧ rk 0 1 = Float64.unit_double 1
  ∧ rk 0 0 = Float64.unit_double 0
  ∧ rk 101010101 20202020
    = Float64.unit_double (101010101 * 67108864 + 20202020).
Proof. repeat split; vm_compute; reflexivity. Qed.

(** With requirejs on the page the script registers its module paths. *)
Example extension_configures_requirejs :
  (Extension.extension {| Extension.require := Some [] |}).2
  = {| Extension.require := Some [Extension.requirejs_map] |}
  ∧ (Extension.extension {| Extension.require := None |}).2
    = {| Extension.require := None |}.
Proof. split; reflexivity. Qed.

End Runs.

(** * The claims *)

Section Claims.

Context {G : Type} `{!BitGenerator G}.
Implicit Types (w : World G) (d : DataFrame) (r df : loc) (times : Z).

Lemma nrows_inflated d times :
  0 ≤ times →
  Z.of_nat (nrows (Nat.iter (Z.to_nat times) dup d))
  = Z.of_nat (nrows d) * 2 ^ times.
Proof.
  intros Hle. rewrite nrows_iter_dup, Nat2Z.inj_mul, Nat2Z.inj_pow.
  by rewrite Z2Nat.id.
Qed.

(** C1.  For a non-negative [times] the duplication loop of [overPop] leaves
    a catalog with [len(df) * 2^times] rows, and so does [overPop]. *)
Theorem inflate_length w df d times :
  heap w !! df = Some d → 0 ≤ times →
  ∃ r w1 d1 w2 d2,
    inflate df times w = (inr r, w1) ∧ heap w1 !! r = Some d1
    ∧ Z.of_nat (nrows d1) = Z.of_nat (nrows d) * 2 ^ times
    ∧ overPop df times w = (inr r, w2) ∧ heap w2 !! r = Some d2
    ∧ Z.of_nat (nrows d2) = Z.of_nat (nrows d) * 2 ^ times.
Proof.
  intros Hdf Hle.
  destruct (overPop_spec w df d times Hdf)
    as (r & w1 & Hinfl & Hr & _ & _ & _ & Hrun).
  eexists r, w1, _, _, _. split; [exact Hinfl |]. split; [exact Hr |].
  split; [by apply nrows_inflated |]. split; [exact Hrun |].
  split; [apply lookup_insert_eq |].
  rewrite nrows_positioned. by apply nrows_inflated.
Qed.


(** C3.  The duplication phase is a function of the catalog and of [times]
    alone: run on the same catalog in two worlds, whatever else their stores
    hold and whatever the states of their random generators, it returns
    catalogs with the same labels and cells, and it neither reads nor
    advances the generator.  The generator only shows in the position
    columns: without them the catalogs that [overPop] returns in the two
    worlds are the same. *)
Theorem inflate_deterministic w w' df df' d times :
  heap w !! df = Some d → heap w' !! df' = Some d →
  ∃ r w1 r' w1' d1,
    inflate df times w = (inr r, w1) ∧ heap w1 !! r = Some d1
    ∧ inflate df' times w' = (inr r', w1') ∧ heap w1' !! r' = Some d1
    ∧ rng w1 = rng w ∧ rng w1' = rng w'
    ∧ ∃ w2 w2' d2 d2',
        overPop df times w = (inr r, w2) ∧ heap w2 !! r = Some d2
        ∧ overPop df' times w' = (inr r', w2') ∧ heap w2' !! r' = Some d2'
        ∧ drop_positions d2 = drop_positions d2'.
Proof.
  intros Hdf Hdf'.
  destruct (overPop_spec w df d times Hdf)
    as (r & w1 & Hinfl & Hr & Hg & _ & _ & Hrun).
  destruct (overPop_spec w' df' d times Hdf')
    as (r' & w1' & Hinfl' & Hr' & Hg' & _ & _ & Hrun').
  exists r, w1, r', w1', (Nat.iter (Z.to_nat times) dup d).
  do 6 (split; [done |]).
  eexists _, _, _, _. split; [exact Hrun |]. split; [apply lookup_insert_eq |].
  split; [exact Hrun' |]. split; [apply lookup_insert_eq |].
  by rewrite !drop_positions_positioned.
Qed.

(** C4.  In the catalog [overPop] returns there is a column [ra] and a column
    [dec]; every column with one of these labels has one cell per row, and
    every cell is a double [x] with [0 <= x < 15]. *)
Theorem positions_in_bounds w df d times :
  heap w !! df = Some d →
  ∃ r w' d',
    overPop df times w = (inr r, w') ∧ heap w' !! r = Some d'
    ∧ "ra"%string ∈ column_labels d' ∧ "dec"%string ∈ column_labels d'
    ∧ ∀ c vs, (c, vs) ∈ columns d' → is_position c = true →
        length vs = nrows d'
        ∧ Forall (λ v, ∃ x, v = SFloat x
                            ∧ Float64.leb Float64.zero x = true
                            ∧ Float64.ltb x Float64.fifteen = true
                            ∧ Float64.valid x = true) vs.
Proof.
  intros Hdf.
  destruct (overPop_spec w df d times Hdf)
    as (r & w1 & _ & _ & _ & _ & _ & Hrun).
  eexists r, _, _. split; [exact Hrun |]. split; [apply lookup_insert_eq |].
  split; [apply column_labels_positioned |].
  split; [apply column_labels_positioned |].
  intros c vs Hel Hpos. rewrite nrows_positioned.
  destruct (position_columns_positioned _ _ _ _ Hel Hpos)
    as (Hlen & Hcells & _).
  split; [exact Hlen |]. apply Forall_forall. intros v Hv.
  destruct (Hcells v Hv) as (i & _ & ->).
  destruct (position_in_range
              ((if bool_decide (c = "ra"%string)
                then 0 else nrows (Nat.iter (Z.to_nat times) dup d)) + i)
              (rng w)) as (x & Hx & Hle & Hlt & Hvalid).
  by exists x.
Qed.

(** C5.  [overPop] works on a copy: the object it returns is not the one it
    was given, and after the call the given object, like every other object
    of the store, holds the catalog it held before. *)
Theorem overPop_input_unchanged w df d times :
  heap w !! df = Some d →
  ∃ r w',
    overPop df times w = (inr r, w')
    ∧ r ≠ df
    ∧ heap w' !! df = Some d
    ∧ ∀ l d0, heap w !! l = Some d0 → heap w' !! l = Some d0.
Proof.
  intros Hdf.
  destruct (overPop_spec w df d times Hdf)
    as (r & w1 & _ & _ & _ & Hsub & Hnew & Hrun).
  assert (∀ l d0, heap w !! l = Some d0 →
            <[r := positioned (Nat.iter (Z.to_nat times) dup d) (rng w)]>
              (heap w1) !! l = Some d0) as Hkeep.
  { intros l d0 Hl. rewrite lookup_insert_ne by congruence.
    by eapply lookup_weaken. }
  eexists r, _. split; [exact Hrun |]. split; [congruence |].
  split; [by apply Hkeep | exact Hkeep].
Qed.

Lemma column_labels_iter_dup n d :
  column_labels (Nat.iter n dup d) = column_labels d.
Proof.
  induction n as [|n IH]; simpl; [done |]. by rewrite column_labels_dup.
Qed.

Lemma count_label_iter_dup c n d :
  count_label c (Nat.iter n dup d) = count_label c d.
Proof. unfold count_label. by rewrite column_labels_iter_dup. Qed.

(** C6.  The duplication phase only appends.  For a well-formed catalog and a
    non-negative [times]: the given object keeps its catalog; the catalog
    returned has the same columns, begins with the rows of the given one in
    their order, and has no row that the given one does not have; one more
    round of the loop gives that catalog followed by a copy of itself; and
    the rows [overPop] returns are, positions aside, rows of the given
    catalog. *)
Theorem inflate_append_only w df d times :
  heap w !! df = Some d → well_formed d → 0 ≤ times →
  ∃ r w1 d1,
    inflate df times w = (inr r, w1) ∧ heap w1 !! r = Some d1
    ∧ heap w1 !! df = Some d
    ∧ column_labels d1 = column_labels d
    ∧ rows d `prefix_of` rows d1
    ∧ (∀ ρ, ρ ∈ rows d1 → ρ ∈ rows d)
    ∧ (∃ r' w1' d1',
         inflate df (times + 1) w = (inr r', w1')
         ∧ heap w1' !! r' = Some d1'
         ∧ rows d1' = rows d1 ++ rows d1)
    ∧ (∃ w2 d2,
         overPop df times w = (inr r, w2) ∧ heap w2 !! r = Some d2
         ∧ ∀ ρ, ρ ∈ rows (drop_positions d2) → ρ ∈ rows (drop_positions d)).
Proof.
  intros Hdf Hwf Hle.
  destruct (overPop_spec w df d times Hdf)
    as (r & w1 & Hinfl & Hr & _ & Hsub & _ & Hrun).
  destruct (inflate_spec w df d (times + 1) Hdf)
    as (r' & w1' & Hinfl' & Hr' & _).
  exists r, w1, (Nat.iter (Z.to_nat times) dup d).
  split; [exact Hinfl |]. split; [exact Hr |].
  split; [by eapply lookup_weaken |].
  split; [apply column_labels_iter_dup |].
  split; [by apply rows_iter_dup_prefix |].
  split; [intros ρ; by apply rows_iter_dup_elem |]. split.
  - exists r', w1', (Nat.iter (Z.to_nat (times + 1)) dup d).
    split; [exact Hinfl' |]. split; [exact Hr' |].
    replace (Z.to_nat (times + 1)) with (S (Z.to_nat times)) by lia.
    simpl. apply rows_dup. by apply well_formed_iter_dup.
  - eexists _, _. split; [exact Hrun |]. split; [apply lookup_insert_eq |].
    intros ρ. rewrite drop_positions_positioned, drop_positions_iter_dup.
    apply rows_iter_dup_elem. by apply well_formed_drop_positions.
Qed.

(** C7.  With [times = 0] the duplication phase returns a copy: another
    object with the labels and cells of the given one, which is left as it
    was. *)
Theorem inflate_zero w df d :
  heap w !! df = Some d →
  ∃ r w1,
    inflate df 0 w = (inr r, w1)
    ∧ heap w1 !! r = Some d
    ∧ r ≠ df
    ∧ heap w1 !! df = Some d.
Proof.
  intros Hdf.
  destruct (inflate_spec w df d 0 Hdf)
    as (r & w1 & Hinfl & Hr & _ & Hsub & Hnew).
  exists r, w1. split; [exact Hinfl |]. split; [exact Hr |].
  split; [congruence | by eapply lookup_weaken].
Qed.

(** C8.  The position phase changes the position columns and nothing else:
    without its columns [ra] and [dec] the catalog [overPop] returns is the
    catalog the duplication phase made (same row labels, same other columns
    in the same order with the same cells).  Its columns [ra] hold the first
    [n] draws and its columns [dec] the next [n], for [n] rows, and nothing
    of what such a column held before: the whole array in each column with
    the label, a new column where there was none, and one draw in each
    column, on every row, where as many columns had the label as there are
    rows. *)
Theorem positions_frame w df d times :
  heap w !! df = Some d →
  ∃ r w1 d1 w2 d2,
    inflate df times w = (inr r, w1) ∧ heap w1 !! r = Some d1
    ∧ overPop df times w = (inr r, w2) ∧ heap w2 !! r = Some d2
    ∧ drop_positions d2 = drop_positions d1
    ∧ ∀ c, is_position c = true →
        filter (λ e, e.1 = c) (columns d2)
        = if bool_decide (1 < count_label c d1
                          ∧ count_label c d1 = nrows d1)%nat
          then (λ i, (c, replicate (nrows d1)
                           (position
                              ((if bool_decide (c = "ra"%string)
                                then 0 else nrows d1) + i) (rng w))))
                 <$> seq 0 (nrows d1)
          else replicate (Nat.max 1 (count_label c d1))
                 (c, drawn (if bool_decide (c = "ra"%string)
                            then 0 else nrows d1) (nrows d1) (rng w)).
Proof.
  intros Hdf.
  destruct (overPop_spec w df d times Hdf)
    as (r & w1 & Hinfl & Hr & _ & _ & _ & Hrun).
  eexists r, w1, _, _, _. split; [exact Hinfl |]. split; [exact Hr |].
  split; [exact Hrun |]. split; [apply lookup_insert_eq |].
  split; [apply drop_positions_positioned |].
  intros c. apply position_columns_filter.
Qed.

(** C9.  For a negative [times] the loop body never runs and nothing is
    raised: [overPop] returns what it returns for [times = 0], a new catalog
    with as many rows as the given one and, positions aside, the same row
    labels, columns and cells; its columns [ra] and [dec] hold the draws that
    the generator gives next, [ra] first, and the generator is left four
    words per row further. *)
Theorem overPop_negative w df d times :
  heap w !! df = Some d → times < 0 →
  ∃ r w' d',
    overPop df times w = (inr r, w')
    ∧ overPop df 0 w = (inr r, w')
    ∧ heap w' !! r = Some d' ∧ heap w !! r = None
    ∧ nrows d' = nrows d
    ∧ drop_positions d' = drop_positions d
    ∧ "ra"%string ∈ column_labels d' ∧ "dec"%string ∈ column_labels d'
    ∧ (∀ c, is_position c = true →
         filter (λ e, e.1 = c) (columns d')
         = if bool_decide (1 < count_label c d
                           ∧ count_label c d = nrows d)%nat
           then (λ i, (c, replicate (nrows d)
                            (position
                               ((if bool_decide (c = "ra"%string)
                                 then 0 else nrows d) + i) (rng w))))
                  <$> seq 0 (nrows d)
           else replicate (Nat.max 1 (count_label c d))
                  (c, drawn (if bool_decide (c = "ra"%string)
                             then 0 else nrows d) (nrows d) (rng w)))
    ∧ rng w' = skip_words (4 * nrows d) (rng w).
Proof.
  intros Hdf Hneg.
  destruct (overPop_spec w df d times Hdf)
    as (r & w1 & _ & _ & _ & _ & Hnew & Hrun).
  replace (Z.to_nat times) with 0%nat in Hrun by lia.
  simpl in Hrun. rewrite Nat.mul_1_r in Hrun.
  eexists r, _, _. split; [exact Hrun |]. split.
  { rewrite <- Hrun. unfold overPop, for_range.
    by replace (Z.to_nat times) with (Z.to_nat 0) by lia. }
  split; [apply lookup_insert_eq |]. split; [exact Hnew |].
  split; [apply nrows_positioned |].
  split; [apply drop_positions_positioned |].
  split; [apply column_labels_positioned |].
  split; [apply column_labels_positioned |].
  split; [intros c; apply position_columns_filter |].
  cbn [rng]. rewrite !random_doubles_state, skip_words_add. f_equal. lia.
Qed.

End Claims.

(** C10.  Whatever the page, the function that the script exports as
    [load_ipython_extension] declares no parameter, and a call of it, with
    any arguments and in any state, returns [undefined] and leaves the state
    as it was. *)
Theorem load_ipython_extension_noop
  (win : Extension.window) (args : list Extension.js_value)
  (win' : Extension.window) :
  let f := Extension.load_ipython_extension (Extension.extension win).1 in
  Extension.fn_length f = 0%nat
  ∧ Extension.fn_call f args win' = (Extension.JSUndefined, win').
Proof. done. Qed.

(** * The claims at a concrete input *)

Module Witness.
Import Example.


Lemma inflate_length_witness :
  heap w0 !! df0 = Some d0 ∧ 0 ≤ 2 ∧
  ∃ r w1 d1 w2 d2,
    inflate df0 2 w0 = (inr r, w1) ∧ heap w1 !! r = Some d1
    ∧ Z.of_nat (nrows d1) = Z.of_nat (nrows d0) * 2 ^ 2
    ∧ overPop df0 2 w0 = (inr r, w2) ∧ heap w2 !! r = Some d2
    ∧ Z.of_nat (nrows d2) = Z.of_nat (nrows d0) * 2 ^ 2.
Proof.
  split; [reflexivity |]. split; [lia |].
  apply (inflate_length w0 df0 d0 2); [reflexivity | lia].
Defined.



Lemma inflate_deterministic_witness :
  heap w0 !! df0 = Some d0 ∧ heap w0' !! 5%positive = Some d0 ∧
  ∃ r w1 r' w1' d1,
    inflate df0 3 w0 = (inr r, w1) ∧ heap w1 !! r = Some d1
    ∧ inflate 5%positive 3 w0' = (inr r', w1') ∧ heap w1' !! r' = Some d1
    ∧ rng w1 = rng w0 ∧ rng w1' = rng w0'
    ∧ ∃ w2 w2' d2 d2',
        overPop df0 3 w0 = (inr r, w2) ∧ heap w2 !! r = Some d2
        ∧ overPop 5%positive 3 w0' = (inr r', w2')
        ∧ heap w2' !! r' = Some d2'
        ∧ drop_positions d2 = drop_positions d2'.
Proof.
  split; [reflexivity |]. split; [reflexivity |].
  apply (inflate_deterministic w0 w0' df0 5%positive d0 3); reflexivity.
Defined.

Lemma positions_in_bounds_witness :
  heap w0 !! df0 = Some d0 ∧
  ∃ r w' d',
    overPop df0 1 w0 = (inr r, w') ∧ heap w' !! r = Some d'
    ∧ "ra"%string ∈ column_labels d' ∧ "dec"%string ∈ column_labels d'
    ∧ ∀ c vs, (c, vs) ∈ columns d' → is_position c = true →
        length vs = nrows d'
        ∧ Forall (λ v, ∃ x, v = SFloat x
                            ∧ Float64.leb Float64.zero x = true
                            ∧ Float64.ltb x Float64.fifteen = true
                            ∧ Float64.valid x = true) vs.
Proof.
  split; [reflexivity |].
  apply (positions_in_bounds w0 df0 d0 1). reflexivity.
Defined.

Lemma overPop_input_unchanged_witness :
  heap w0 !! df0 = Some d0 ∧
  ∃ r w',
    overPop df0 1 w0 = (inr r, w')
    ∧ r ≠ df0
    ∧ heap w' !! df0 = Some d0
    ∧ ∀ l d, heap w0 !! l = Some d → heap w' !! l = Some d.
Proof.
  split; [reflexivity |].
  apply (overPop_input_unchanged w0 df0 d0 1). reflexivity.
Defined.

Lemma inflate_append_only_witness :
  heap w0 !! df0 = Some d0 ∧ well_formed d0 ∧ 0 ≤ 1 ∧
  ∃ r w1 d1,
    inflate df0 1 w0 = (inr r, w1) ∧ heap w1 !! r = Some d1
    ∧ heap w1 !! df0 = Some d0
    ∧ column_labels d1 = column_labels d0
    ∧ rows d0 `prefix_of` rows d1
    ∧ (∀ ρ, ρ ∈ rows d1 → ρ ∈ rows d0)
    ∧ (∃ r' w1' d1',
         inflate df0 (1 + 1) w0 = (inr r', w1')
         ∧ heap w1' !! r' = Some d1'
         ∧ rows d1' = rows d1 ++ rows d1)
    ∧ (∃ w2 d2,
         overPop df0 1 w0 = (inr r, w2) ∧ heap w2 !! r = Some d2
         ∧ ∀ ρ, ρ ∈ rows (drop_positions d2) → ρ ∈ rows (drop_positions d0)).
Proof.
  split; [reflexivity |].
  split; [apply (bool_decide_unpack _); vm_compute; reflexivity |].
  split; [lia |].
  apply (inflate_append_only w0 df0 d0 1);
    [reflexivity | apply (bool_decide_unpack _); vm_compute; reflexivity
    | lia].
Defined.

Lemma inflate_zero_witness :
  heap w0 !! df0 = Some d0 ∧
  ∃ r w1,
    inflate df0 0 w0 = (inr r, w1)
    ∧ heap w1 !! r = Some d0
    ∧ r ≠ df0
    ∧ heap w1 !! df0 = Some d0.
Proof.
  split; [reflexivity |]. apply (inflate_zero w0 df0 d0). reflexivity.
Defined.

Lemma positions_frame_witness :
  heap w_rep !! df0 = Some d_rep ∧
  ∃ r w1 d1 w2 d2,
    inflate df0 0 w_rep = (inr r, w1) ∧ heap w1 !! r = Some d1
    ∧ overPop df0 0 w_rep = (inr r, w2) ∧ heap w2 !! r = Some d2
    ∧ drop_positions d2 = drop_positions d1
    ∧ ∀ c, is_position c = true →
        filter (λ e, e.1 = c) (columns d2)
        = if bool_decide (1 < count_label c d1
                          ∧ count_label c d1 = nrows d1)%nat
          then (λ i, (c, replicate (nrows d1)
                           (position
                              ((if bool_decide (c = "ra"%string)
                                then 0 else nrows d1) + i) (rng w_rep))))
                 <$> seq 0 (nrows d1)
          else replicate (Nat.max 1 (count_label c d1))
                 (c, drawn (if bool_decide (c = "ra"%string)
                            then 0 else nrows d1) (nrows d1) (rng w_rep)).
Proof.
  split; [reflexivity |].
  apply (positions_frame w_rep df0 d_rep 0). reflexivity.
Defined.

Lemma overPop_negative_witness :
  heap w0 !! df0 = Some d0 ∧ -3 < 0 ∧
  ∃ r w' d',
    overPop df0 (-3) w0 = (inr r, w')
    ∧ overPop df0 0 w0 = (inr r, w')
    ∧ heap w' !! r = Some d' ∧ heap w0 !! r = None
    ∧ nrows d' = nrows d0
    ∧ drop_positions d' = drop_positions d0
    ∧ "ra"%string ∈ column_labels d' ∧ "dec"%string ∈ column_labels d'
    ∧ (∀ c, is_position c = true →
         filter (λ e, e.1 = c) (columns d')
         = if bool_decide (1 < count_label c d0
                           ∧ count_label c d0 = nrows d0)%nat
           then (λ i, (c, replicate (nrows d0)
                            (position
                               ((if bool_decide (c = "ra"%string)
                                 then 0 else nrows d0) + i) (rng w0))))
                  <$> seq 0 (nrows d0)
           else replicate (Nat.max 1 (count_label c d0))
                  (c, drawn (if bool_decide (c = "ra"%string)
                             then 0 else nrows d0) (nrows d0) (rng w0)))
    ∧ rng w' = skip_words (4 * nrows d0) (rng w0).
Proof.
  split; [reflexivity |]. split; [lia |].
  apply (overPop_negative w0 df0 d0 (-3)); [reflexivity | lia].
Defined.

End Witness.

(** * Further properties of [overPop] *)

(** ** Frames *)

Lemma index_iter_dup n d :
  (0 < n)%nat → index (Nat.iter n dup d) = RangeIndex (nrows d * 2 ^ n).
Proof.
  destruct n as [|n]; [lia |]. intros _. simpl.
  rewrite nrows_iter_dup. f_equal. lia.
Qed.

Lemma rows_iter_dup n d :
  well_formed d →
  rows (Nat.iter n dup d) = concat (replicate (2 ^ n) (rows d)).
Proof.
  intros Hwf. induction n as [|n IH]; simpl.
  - by rewrite app_nil_r.
  - rewrite rows_dup by by apply well_formed_iter_dup.
    rewrite IH, Nat.add_0_r, replicate_add. by rewrite concat_app.
Qed.

Lemma iter_dup_add n m d :
  Nat.iter n dup (Nat.iter m dup d) = Nat.iter (m + n) dup d.
Proof. by rewrite Nat.add_comm, Nat.iter_add. Qed.


Lemma lookup_concat_replicate {A} (l : list A) k i :
  (i < k * length l)%nat →
  concat (replicate k l) !! i = l !! (i mod length l)%nat.
Proof.
  revert i. induction k as [|k IH]; intros i Hi; [lia |].
  assert (0 < length l)%nat as Hpos by lia.
  simpl. destruct (decide (i < length l)%nat) as [Hlt | Hge].
  - rewrite lookup_app_l by done. by rewrite Nat.mod_small.
  - rewrite lookup_app_r by lia. rewrite IH by lia. f_equal.
    replace i with ((i - length l) + 1 * length l)%nat at 2 by lia.
    by rewrite Nat.Div0.mod_add.
Qed.

Lemma length_rows d : length (rows d) = nrows d.
Proof. unfold rows. by rewrite length_fmap, length_seq. Qed.

(** ** What [overPop] returns *)

Section MoreOverPop.

Context {G : Type} `{!BitGenerator G}.
Implicit Types (w : World G) (d : DataFrame) (r df : loc) (times : Z).

(** X1.  [overPop] on a catalog that [overPop] returned: after [a] rounds
    and then [b] rounds the catalog has [len(df) * 2^(a+b)] rows and is,
    positions aside, the catalog that one call with [a + b] rounds
    returns. *)
Theorem overPop_twice w df d a b :
  heap w !! df = Some d → 0 ≤ a → 0 ≤ b →
  ∃ r1 w1 r2 w2 d2 r3 w3 d3,
    overPop df a w = (inr r1, w1)
    ∧ overPop r1 b w1 = (inr r2, w2) ∧ heap w2 !! r2 = Some d2
    ∧ overPop df (a + b) w = (inr r3, w3) ∧ heap w3 !! r3 = Some d3
    ∧ Z.of_nat (nrows d2) = Z.of_nat (nrows d) * 2 ^ (a + b)
    ∧ drop_positions d2 = drop_positions d3.
Proof.
  intros Hdf Ha Hb.
  destruct (overPop_spec w df d a Hdf)
    as (r1 & w1 & _ & _ & _ & _ & _ & Hrun1).
  match type of Hrun1 with _ = (_, ?w) => set (w1' := w) in * end.
  assert (heap w1' !! r1
          = Some (positioned (Nat.iter (Z.to_nat a) dup d) (rng w))) as Hr1
    by apply lookup_insert_eq.
  destruct (overPop_spec w1' r1 _ b Hr1)
    as (r2 & w2 & _ & _ & _ & _ & _ & Hrun2).
  destruct (overPop_spec w df d (a + b) Hdf)
    as (r3 & w3 & _ & _ & _ & _ & _ & Hrun3).
  eexists r1, w1', r2, _, _, r3, _, _.
  split; [exact Hrun1 |]. split; [exact Hrun2 |].
  split; [apply lookup_insert_eq |]. split; [exact Hrun3 |].
  split; [apply lookup_insert_eq |].
  assert (Z.to_nat (a + b) = (Z.to_nat a + Z.to_nat b)%nat) as Hab by lia.
  split.
  - rewrite nrows_positioned, nrows_iter_dup, nrows_positioned,
      nrows_iter_dup.
    rewrite !Nat2Z.inj_mul, !Nat2Z.inj_pow, !Z2Nat.id by lia.
    rewrite Z.pow_add_r by lia. simpl. lia.
  - rewrite !drop_positions_positioned, !drop_positions_iter_dup.
    rewrite drop_positions_positioned, drop_positions_iter_dup.
    by rewrite iter_dup_add, Hab.
Qed.

(** X2.  The columns of the catalog returned: those of the given catalog in
    their order, then [ra] and [dec] where the given catalog had no column
    of that name. *)
Theorem overPop_column_labels w df d times :
  heap w !! df = Some d →
  ∃ r w' d',
    overPop df times w = (inr r, w') ∧ heap w' !! r = Some d'
    ∧ column_labels d'
      = column_labels d
        ++ filter (λ c, c ∉ column_labels d) ["ra"; "dec"]%string.
Proof.
  intros Hdf.
  destruct (overPop_spec w df d times Hdf)
    as (r & w1 & _ & _ & _ & _ & _ & Hrun).
  eexists r, _, _. split; [exact Hrun |]. split; [apply lookup_insert_eq |].
  unfold positioned. cbv zeta.
  rewrite !column_labels_set_column, column_labels_iter_dup.
  rewrite <- app_assoc. f_equal. rewrite !filter_cons, filter_nil.
  assert ("dec"%string ∈ column_labels d
                         ++ (if bool_decide ("ra"%string ∈ column_labels d)
                             then [] else ["ra"%string])
          ↔ "dec"%string ∈ column_labels d) as Hdec.
  { rewrite elem_of_app. split; [intros [Hin | Hin]; [done |] | by left].
    destruct (bool_decide _);
      [by apply elem_of_nil in Hin | by apply list_elem_of_singleton in Hin]. }
  rewrite (bool_decide_ext _ _ Hdec).
  do 2 case_bool_decide; repeat case_decide; done.
Qed.

(** X3.  A well-formed catalog gives a well-formed catalog: in what
    [overPop] returns every column, old or new, has one cell per row. *)
Theorem overPop_well_formed w df d times :
  heap w !! df = Some d → well_formed d →
  ∃ r w' d',
    overPop df times w = (inr r, w') ∧ heap w' !! r = Some d'
    ∧ well_formed d'.
Proof.
  intros Hdf Hwf.
  destruct (overPop_spec w df d times Hdf)
    as (r & w1 & _ & _ & _ & _ & _ & Hrun).
  eexists r, _, _. split; [exact Hrun |]. split; [apply lookup_insert_eq |].
  unfold positioned. cbv zeta.
  apply well_formed_set_column;
    [by rewrite nrows_set_column, length_fmap, length_ndarray_mul,
          length_random_doubles |].
  apply well_formed_set_column;
    [by rewrite length_fmap, length_ndarray_mul, length_random_doubles |].
  by apply well_formed_iter_dup.
Qed.

(** X4.  The row labels of the catalog returned: with one round or more they
    are [0 .. n-1] whatever the labels of the given catalog, with no round
    ([times <= 0]) they are the labels of the given catalog. *)
Theorem overPop_index w df d times :
  heap w !! df = Some d →
  ∃ r w' d',
    overPop df times w = (inr r, w') ∧ heap w' !! r = Some d'
    ∧ (0 < times → index d' = RangeIndex (nrows d * 2 ^ Z.to_nat times))
    ∧ (times ≤ 0 → index d' = index d).
Proof.
  intros Hdf.
  destruct (overPop_spec w df d times Hdf)
    as (r & w1 & _ & _ & _ & _ & _ & Hrun).
  eexists r, _, _. split; [exact Hrun |]. split; [apply lookup_insert_eq |].
  split; intros Htimes; rewrite index_positioned.
  - apply index_iter_dup. lia.
  - by replace (Z.to_nat times) with 0%nat by lia.
Qed.

(** X5.  The rows of the catalog returned are the rows of the given catalog,
    repeated [2^times] times in a row, positions aside: row [i] is row
    [i mod len(df)] of the given catalog. *)
Theorem overPop_rows_repeated w df d times :
  heap w !! df = Some d → well_formed d → 0 ≤ times →
  ∃ r w' d',
    overPop df times w = (inr r, w') ∧ heap w' !! r = Some d'
    ∧ rows (drop_positions d')
      = concat (replicate (2 ^ Z.to_nat times) (rows (drop_positions d)))
    ∧ ∀ i, (i < nrows d')%nat →
        rows (drop_positions d') !! i
        = rows (drop_positions d) !! (i mod nrows d)%nat.
Proof.
  intros Hdf Hwf Htimes.
  destruct (overPop_spec w df d times Hdf)
    as (r & w1 & _ & _ & _ & _ & _ & Hrun).
  eexists r, _, _. split; [exact Hrun |]. split; [apply lookup_insert_eq |].
  rewrite drop_positions_positioned, drop_positions_iter_dup.
  rewrite rows_iter_dup by by apply well_formed_drop_positions.
  split; [done |]. intros i Hi.
  rewrite nrows_positioned, nrows_iter_dup in Hi.
  rewrite lookup_concat_replicate; rewrite length_rows, nrows_drop_positions;
    [done | lia].
Qed.

(** X6.  A catalog without rows: [overPop] returns a catalog without rows,
    whose columns [ra] and [dec] are there and empty, and takes nothing from
    the generator. *)
Theorem overPop_empty w df d times :
  heap w !! df = Some d → nrows d = 0%nat →
  ∃ r w' d',
    overPop df times w = (inr r, w') ∧ heap w' !! r = Some d'
    ∧ nrows d' = 0%nat
    ∧ rng w' = rng w
    ∧ ("ra"%string, []) ∈ columns d' ∧ ("dec"%string, []) ∈ columns d'
    ∧ ∀ c vs, (c, vs) ∈ columns d' → is_position c = true → vs = [].
Proof.
  intros Hdf Hempty.
  destruct (overPop_spec w df d times Hdf)
    as (r & w1 & _ & _ & _ & _ & _ & Hrun).
  rewrite Hempty in Hrun. simpl in Hrun.
  eexists r, _, _. split; [exact Hrun |]. split; [apply lookup_insert_eq |].
  assert (nrows (Nat.iter (Z.to_nat times) dup d) = 0%nat) as Hn
    by (rewrite nrows_iter_dup; lia).
  split; [by rewrite nrows_positioned |]. split; [done |].
  assert (∀ c, is_position c = true →
            (c, []) ∈ columns (positioned
                                 (Nat.iter (Z.to_nat times) dup d) (rng w)))
    as Hthere.
  { intros c Hpos.
    pose proof (elem_of_columns_positioned
                  (Nat.iter (Z.to_nat times) dup d) (rng w) c Hpos) as Hel.
    rewrite Hn in Hel. apply Hel. lia. }
  split; [by apply Hthere |]. split; [by apply Hthere |].
  intros c vs Hel Hpos.
  destruct (position_columns_positioned _ _ _ _ Hel Hpos) as (Hlen & _).
  rewrite Hn in Hlen. by apply nil_length_inv.
Qed.

(** X7.  What [overPop] takes from the generator.  For a catalog with at
    most one column [ra] and at most one column [dec], and with [n] the
    number of rows returned: the catalog returned has one column [ra] and one
    column [dec], the cells of [ra] followed by the cells of [dec] are the
    next [2 n] doubles of the generator, each times [15.0], and the
    generator is left [4 n] words further. *)
Theorem overPop_generator w df d times :
  heap w !! df = Some d →
  (count_label "ra" d ≤ 1)%nat → (count_label "dec" d ≤ 1)%nat →
  ∃ r w' d' xs ys,
    overPop df times w = (inr r, w') ∧ heap w' !! r = Some d'
    ∧ filter (λ e, e.1 = "ra"%string) (columns d') = [("ra"%string, xs)]
    ∧ filter (λ e, e.1 = "dec"%string) (columns d') = [("dec"%string, ys)]
    ∧ length xs = nrows d' ∧ length ys = nrows d'
    ∧ xs ++ ys = (λ i, position i (rng w)) <$> seq 0 (2 * nrows d')
    ∧ rng w' = skip_words (4 * nrows d') (rng w).
Proof.
  intros Hdf Hra Hdec.
  destruct (overPop_spec w df d times Hdf)
    as (r & w1 & _ & _ & _ & _ & _ & Hrun).
  set (D := Nat.iter (Z.to_nat times) dup d) in *.
  assert (nrows D = (nrows d * 2 ^ Z.to_nat times)%nat) as HD
    by apply nrows_iter_dup.
  rewrite <- HD in Hrun.
  assert (∀ c, is_position c = true → (count_label c d ≤ 1)%nat →
            filter (λ e, e.1 = c) (columns (positioned D (rng w)))
            = [(c, drawn (if bool_decide (c = "ra"%string)
                          then 0 else nrows D) (nrows D) (rng w))]) as Hcol.
  { intros c Hpos Hc. rewrite (position_columns_filter D (rng w) c Hpos).
    assert (count_label c D = count_label c d) as ->
      by apply count_label_iter_dup.
    rewrite bool_decide_eq_false_2 by lia.
    by replace (Nat.max 1 (count_label c d)) with 1%nat by lia. }
  eexists r, _, _, _, _. split; [exact Hrun |].
  split; [apply lookup_insert_eq |].
  split; [exact (Hcol "ra"%string eq_refl Hra) |].
  split; [exact (Hcol "dec"%string eq_refl Hdec) |].
  rewrite nrows_positioned.
  split; [apply length_drawn |]. split; [apply length_drawn |]. split.
  - rewrite bool_decide_eq_true_2, bool_decide_eq_false_2 by done.
    rewrite (drawn_app 0 (nrows D) (nrows D) (rng w)). unfold drawn.
    by replace (nrows D + nrows D)%nat with (2 * nrows D)%nat by lia.
  - cbn [rng]. rewrite !random_doubles_state, skip_words_add. f_equal. lia.
Qed.

(** X8.  The positions do not depend on what the catalog holds.  For two
    catalogs with the same number of rows and as many columns [ra] and as
    many columns [dec] (a missing column counting as one, since it is
    added), and generators in the same state, [overPop] returns catalogs
    with the same columns [ra] and [dec] and leaves the generators in the
    same state. *)
Theorem overPop_positions_independent w w' df df' d d' times :
  heap w !! df = Some d → heap w' !! df' = Some d' →
  nrows d = nrows d' → rng w = rng w' →
  Nat.max 1 (count_label "ra" d) = Nat.max 1 (count_label "ra" d') →
  Nat.max 1 (count_label "dec" d) = Nat.max 1 (count_label "dec" d') →
  ∃ r w2 d2 r' w2' d2',
    overPop df times w = (inr r, w2) ∧ heap w2 !! r = Some d2
    ∧ overPop df' times w' = (inr r', w2') ∧ heap w2' !! r' = Some d2'
    ∧ rng w2 = rng w2'
    ∧ ∀ c, is_position c = true →
        filter (λ e, e.1 = c) (columns d2)
        = filter (λ e, e.1 = c) (columns d2').
Proof.
  intros Hdf Hdf' Hrows Hrng Hra Hdec.
  destruct (overPop_spec w df d times Hdf)
    as (r & w1 & _ & _ & _ & _ & _ & Hrun).
  destruct (overPop_spec w' df' d' times Hdf')
    as (r' & w1' & _ & _ & _ & _ & _ & Hrun').
  set (D := Nat.iter (Z.to_nat times) dup d) in *.
  set (D' := Nat.iter (Z.to_nat times) dup d') in *.
  assert (nrows D = nrows D') as HD
    by (unfold D, D'; by rewrite !nrows_iter_dup, Hrows).
  eexists r, _, _, r', _, _. split; [exact Hrun |].
  split; [apply lookup_insert_eq |]. split; [exact Hrun' |].
  split; [apply lookup_insert_eq |].
  split; [simpl; by rewrite Hrows, Hrng |].
  intros c Hpos.
  assert (Nat.max 1 (count_label c D) = Nat.max 1 (count_label c D')) as Hk.
  { unfold D, D'. rewrite !count_label_iter_dup.
    by destruct (is_position_cases c Hpos) as [-> | ->]. }
  rewrite !position_columns_filter by done. rewrite <- Hrng, <- HD.
  destruct (decide (1 < count_label c D)%nat) as [Hgt | Hle].
  - by assert (count_label c D' = count_label c D) as -> by lia.
  - rewrite (bool_decide_eq_false_2
               (1 < count_label c D ∧ count_label c D = nrows D)%nat) by lia.
    rewrite (bool_decide_eq_false_2
               (1 < count_label c D' ∧ count_label c D' = nrows D)%nat)
      by lia.
    by rewrite Hk.
Qed.

(** X14.  [overPop] called a second time on the same catalog: it returns
    another object and leaves the given catalog and the first result as
    they were; the two results are the same but for their positions, and
    the positions of the second are the draws that come after the [2 n] of
    the first, for [n] rows: its columns [ra] hold the draws [2 n] to
    [3 n - 1] and its columns [dec] the draws [3 n] to [4 n - 1]. *)
Theorem overPop_again w df d times :
  heap w !! df = Some d →
  ∃ r1 w1 d1 r2 w2 d2,
    overPop df times w = (inr r1, w1) ∧ heap w1 !! r1 = Some d1
    ∧ overPop df times w1 = (inr r2, w2) ∧ heap w2 !! r2 = Some d2
    ∧ r2 ≠ r1 ∧ heap w2 !! r1 = Some d1 ∧ heap w2 !! df = Some d
    ∧ drop_positions d2 = drop_positions d1
    ∧ nrows d2 = nrows d1
    ∧ rng w1 = skip_words (4 * nrows d1) (rng w)
    ∧ rng w2 = skip_words (8 * nrows d1) (rng w)
    ∧ ∀ c, is_position c = true →
        filter (λ e, e.1 = c) (columns d2)
        = if bool_decide (1 < count_label c d
                          ∧ count_label c d = nrows d1)%nat
          then (λ i, (c, replicate (nrows d1)
                           (position
                              (2 * nrows d1
                               + (if bool_decide (c = "ra"%string)
                                  then 0 else nrows d1) + i) (rng w))))
                 <$> seq 0 (nrows d1)
          else replicate (Nat.max 1 (count_label c d))
                 (c, drawn (2 * nrows d1
                            + (if bool_decide (c = "ra"%string)
                               then 0 else nrows d1)) (nrows d1) (rng w)).
Proof.
  intros Hdf.
  destruct (overPop_spec w df d times Hdf)
    as (r1 & u1 & _ & _ & _ & Hsub1 & Hnew1 & Hrun1).
  set (D := Nat.iter (Z.to_nat times) dup d) in *.
  assert (nrows D = (nrows d * 2 ^ Z.to_nat times)%nat) as HD
    by apply nrows_iter_dup.
  rewrite <- HD in Hrun1.
  match type of Hrun1 with _ = (_, ?w) => set (w1 := w) in * end.
  assert (r1 ≠ df) as Hne by congruence.
  assert (heap w1 !! df = Some d) as Hdf1.
  { unfold w1. simpl. rewrite lookup_insert_ne by done.
    by eapply lookup_weaken. }
  assert (heap w1 !! r1 = Some (positioned D (rng w))) as Hr1
    by apply lookup_insert_eq.
  assert (rng w1 = skip_words (2 * (2 * nrows D)) (rng w)) as Hg1.
  { unfold w1. cbn [rng]. rewrite !random_doubles_state, skip_words_add.
    f_equal. lia. }
  destruct (overPop_spec w1 df d times Hdf1)
    as (r2 & u2 & _ & _ & _ & Hsub2 & Hnew2 & Hrun2).
  fold D in Hrun2. rewrite <- HD in Hrun2.
  assert (r2 ≠ r1) as Hne2 by congruence.
  eexists r1, w1, _, r2, _, _. split; [exact Hrun1 |]. split; [exact Hr1 |].
  split; [exact Hrun2 |]. split; [apply lookup_insert_eq |].
  split; [exact Hne2 |]. cbn [heap].
  split; [rewrite lookup_insert_ne by done; by eapply lookup_weaken |].
  split; [rewrite lookup_insert_ne by congruence; by eapply lookup_weaken |].
  split; [by rewrite !drop_positions_positioned |].
  rewrite !nrows_positioned. split; [done |].
  split; [rewrite Hg1; f_equal; lia |]. split.
  - cbn [rng]. rewrite !random_doubles_state, Hg1, !skip_words_add.
    f_equal. lia.
  - intros c Hpos. rewrite Hg1.
    rewrite (position_columns_filter_skip D (rng w) c (2 * nrows D) Hpos).
    assert (count_label c D = count_label c d) as ->
      by apply count_label_iter_dup.
    done.
Qed.

End MoreOverPop.

(** * [js/webpack.config.js]: which loaders a file gets *)

Module WebpackFacts.
Import Webpack.

(** ** The matcher finds what the patterns denote *)

Lemma nullable_lang r : nullable r = true ↔ lang r [].
Proof.
  split.
  - induction r as [| | c | | r1 IH1 r2 IH2 | r1 IH1 r2 IH2 | r IH]; simpl;
      intros Hn; try discriminate.
    + constructor.
    + apply orb_true_iff in Hn as [Hn | Hn];
        [apply lang_Alt_l | apply lang_Alt_r]; auto.
    + apply andb_true_iff in Hn as [Hn1 Hn2].
      apply (lang_Cat r1 r2 [] []); auto.
    + constructor.
  - intros Hl. remember [] as t eqn:Hs.
    induction Hl as [| c | c Hc | r1 r2 s Hl IH | r1 r2 s Hl IH
                     | r1 r2 s1 s2 Hl1 IH1 Hl2 IH2 | r
                     | r s1 s2 Hl1 IH1 Hl2 IH2]; simpl; try done.
    + by rewrite IH.
    + rewrite IH by done. apply orb_true_r.
    + apply app_eq_nil in Hs as [-> ->]. by rewrite IH1, IH2.
Qed.

Lemma deriv_lang c r s : lang (deriv c r) s ↔ lang r (c :: s).
Proof.
  split.
  - revert s.
    induction r as [| | a | | r1 IH1 r2 IH2 | r1 IH1 r2 IH2 | r IH];
      simpl; intros s Hl.
    + inversion Hl.
    + inversion Hl.
    + case_bool_decide as Ha; inversion Hl; subst. constructor.
    + destruct (line_terminator c) eqn:Hc; inversion Hl; subst.
      by constructor.
    + inversion Hl; subst; [apply lang_Alt_l | apply lang_Alt_r]; auto.
    + assert (∀ t, lang (Cat (deriv c r1) r2) t → lang (Cat r1 r2) (c :: t))
        as Hcat.
      { intros t Ht. inversion Ht as [| | | | | ? ? s1 s2 H1 H2 | |]; subst.
        apply (lang_Cat r1 r2 (c :: s1) s2); auto. }
      destruct (nullable r1) eqn:Hn; [| by apply Hcat].
      inversion Hl; subst; [by apply Hcat |].
      apply (lang_Cat r1 r2 [] (c :: s)); [by apply nullable_lang | auto].
    + inversion Hl as [| | | | | ? ? s1 s2 H1 H2 | |]; subst.
      apply (lang_Star_app r (c :: s1) s2); auto.
  - intros Hl. remember (c :: s) as t eqn:Ht. revert s Ht.
    induction Hl as [| a | a Ha | r1 r2 t Hl IH | r1 r2 t Hl IH
                     | r1 r2 s1 s2 Hl1 IH1 Hl2 IH2 | r
                     | r s1 s2 Hl1 IH1 Hl2 IH2]; intros s Ht;
      try discriminate.
    + injection Ht as -> <-. simpl. rewrite bool_decide_eq_true_2 by done.
      constructor.
    + injection Ht as -> <-. simpl. rewrite Ha. constructor.
    + simpl. apply lang_Alt_l. auto.
    + simpl. apply lang_Alt_r. auto.
    + simpl. destruct s1 as [|c1 s1]; simpl in Ht.
      * apply nullable_lang in Hl1. rewrite Hl1. apply lang_Alt_r. auto.
      * injection Ht as -> <-.
        assert (lang (Cat (deriv c r1) r2) (s1 ++ s2)) as Hcat
          by (constructor; auto).
        destruct (nullable r1); [by apply lang_Alt_l | done].
    + destruct s1 as [|c1 s1]; simpl in Ht; [auto |].
      injection Ht as -> <-. simpl. constructor; auto.
Qed.

Lemma match_here_spec r e s :
  match_here r e s = true
  ↔ ∃ m q, s = m ++ q ∧ lang r m ∧ (e = true → q = []).
Proof.
  revert r. induction s as [|c s IH]; intros r; cbn [match_here].
  - rewrite orb_false_r, bool_decide_eq_true_2, orb_true_r, andb_true_r
      by done.
    rewrite nullable_lang. split.
    + intros Hl. by exists [], [].
    + intros (m & q & Hs & Hl & _). symmetry in Hs.
      by apply app_eq_nil in Hs as [-> _].
  - rewrite bool_decide_eq_false_2, orb_false_r by done.
    rewrite orb_true_iff, andb_true_iff, negb_true_iff, IH, nullable_lang.
    split.
    + intros [[Hl He] | (m & q & -> & Hl & Hq)].
      * exists [], (c :: s). split; [done |]. split; [done | congruence].
      * exists (c :: m), q. split; [done |]. split; [| done].
        by apply deriv_lang.
    + intros (m & q & Hs & Hl & Hq). destruct m as [|c' m]; simpl in Hs.
      * left. split; [done |]. destruct e; [| done].
        specialize (Hq eq_refl). by subst.
      * injection Hs as <- ->. right. exists m, q.
        split; [done |]. split; [| done]. by apply deriv_lang.
Qed.

Lemma search_spec r e s :
  search r e s = true
  ↔ ∃ p m q, s = p ++ m ++ q ∧ lang r m ∧ (e = true → q = []).
Proof.
  induction s as [|c s IH]; cbn [search].
  - rewrite orb_false_r, match_here_spec. split.
    + intros (m & q & Hs & Hl & Hq). by exists [], m, q.
    + intros (p & m & q & Hs & Hl & Hq). symmetry in Hs.
      apply app_eq_nil in Hs as [-> Hs]. by exists m, q.
  - rewrite orb_true_iff, match_here_spec, IH. split.
    + intros [(m & q & Hs & Hl & Hq) | (p & m & q & -> & Hl & Hq)].
      * by exists [], m, q.
      * by exists (c :: p), m, q.
    + intros (p & m & q & Hs & Hl & Hq). destruct p as [|c' p]; simpl in Hs.
      * left. by exists m, q.
      * injection Hs as <- ->. right. by exists p, m, q.
Qed.

(** ** The patterns of the file *)

Lemma lang_lit_of l m : lang (lit_of l) m ↔ m = l.
Proof.
  revert m. induction l as [|c l IH]; intros m; simpl.
  - split; [by inversion 1 | intros ->; constructor].
  - split.
    + inversion 1 as [| | | | | ? ? s1 s2 H1 H2 | |]; subst.
      inversion H1; subst. apply IH in H2 as ->. done.
    + intros ->. apply (lang_Cat (Chr c) (lit_of l) [c] l);
        [constructor | by apply IH].
Qed.

Lemma lang_lit t m : lang (lit t) m ↔ m = str t.
Proof. apply lang_lit_of. Qed.

Lemma lang_Star_Dot m : lang (Star Dot) m ↔ no_line_terminator m.
Proof.
  split.
  - intros Hl. remember (Star Dot) as r eqn:Hr.
    induction Hl as [| | | | | | r0 | r0 s1 s2 Hl1 _ Hl2 IH2];
      try discriminate; [constructor |].
    injection Hr as ->. inversion Hl1; subst.
    constructor; [done | by apply IH2].
  - induction 1 as [|c m Hc Hm IH]; [constructor |].
    apply (lang_Star_app Dot [c] m); [by constructor | done].
Qed.

Lemma test_suffix t s :
  RegExp_test {| body := lit t; dollar := true |} s = true
  ↔ str t `suffix_of` s.
Proof.
  unfold RegExp_test. simpl. rewrite search_spec. split.
  - intros (p & m & q & -> & ->%lang_lit & Hq).
    rewrite (Hq eq_refl), app_nil_r. by exists p.
  - intros [p ->]. exists p, (str t), []. rewrite app_nil_r.
    split; [done |]. split; [by apply lang_lit | done].
Qed.

Lemma test_image s :
  RegExp_test image_test s = true
  ↔ str ".jpg" `suffix_of` s ∨ str ".png" `suffix_of` s
    ∨ str ".gif" `suffix_of` s ∨ str ".svg" `suffix_of` s.
Proof.
  unfold RegExp_test. simpl. rewrite search_spec. split.
  - intros (p & m & q & -> & Hl & Hq). rewrite (Hq eq_refl), app_nil_r.
    inversion Hl as [| | | | | ? ? s1 s2 H1 H2 | |]; subst.
    apply lang_lit in H1 as ->.
    inversion H2 as [| | | ? ? ? H3 | ? ? ? H3 | | |]; subst;
      [apply lang_lit in H3 as ->; left; by exists p |].
    inversion H3 as [| | | ? ? ? H4 | ? ? ? H4 | | |]; subst;
      [apply lang_lit in H4 as ->; right; left; by exists p |].
    inversion H4 as [| | | ? ? ? H5 | ? ? ? H5 | | |]; subst;
      apply lang_lit in H5 as ->; right; right; [left | right]; by exists p.
  - assert (∀ p e, lang (Alt (lit "jpg") (Alt (lit "png")
                      (Alt (lit "gif") (lit "svg")))) (str e) →
              ∃ p0 m q, p ++ str "." ++ str e = p0 ++ m ++ q
                ∧ lang (body image_test) m
                ∧ (true = true → q = [])) as Hfound.
    { intros p e He. exists p, (str "." ++ str e), [].
      rewrite app_nil_r. split; [done |]. split; [| done].
      apply lang_Cat; [by apply lang_lit | done]. }
    intros [[p ->] | [[p ->] | [[p ->] | [p ->]]]].
    + apply (Hfound p "jpg"%string). apply lang_Alt_l. by apply lang_lit.
    + apply (Hfound p "png"%string). apply lang_Alt_r, lang_Alt_l.
      by apply lang_lit.
    + apply (Hfound p "gif"%string). do 2 apply lang_Alt_r.
      apply lang_Alt_l. by apply lang_lit.
    + apply (Hfound p "svg"%string). do 3 apply lang_Alt_r.
      by apply lang_lit.
Qed.

(** The three icon patterns have one shape: a fixed beginning, then code
    units of one line, then [.png], somewhere in the path. *)
Lemma test_icon a s :
  RegExp_test
    {| body := Cat (lit a) (Cat (Star Dot) (lit ".png")); dollar := false |} s
  = true
  ↔ ∃ p m q, s = p ++ str a ++ m ++ str ".png" ++ q ∧ no_line_terminator m.
Proof.
  unfold RegExp_test. simpl. rewrite search_spec. split.
  - intros (p & x & q & -> & Hl & _).
    inversion Hl as [| | | | | ? ? s1 s2 H1 H2 | |]; subst.
    apply lang_lit in H1 as ->.
    inversion H2 as [| | | | | ? ? m s3 H3 H4 | |]; subst.
    apply lang_lit in H4 as ->. apply lang_Star_Dot in H3.
    exists p, m, q. by rewrite <- !app_assoc.
  - intros (p & m & q & -> & Hm).
    exists p, (str a ++ m ++ str ".png"), q. rewrite <- !app_assoc.
    split; [done |]. split; [| done].
    apply lang_Cat; [by apply lang_lit |].
    apply lang_Cat; [by apply lang_Star_Dot | by apply lang_lit].
Qed.

Lemma last_suffix {A} (l s : list A) :
  l `suffix_of` s → l ≠ [] → last s = last l.
Proof.
  intros [k ->] Hl. induction k as [|x k IH]; [done |].
  simpl. destruct (k ++ l) eqn:Hkl; [| done].
  by apply app_eq_nil in Hkl as [_ ->].
Qed.

(** ** The rules that apply *)

Lemma loaders_for_eq path :
  loaders_for path
  = (if RegExp_test json_test path then ["json-loader"%string] else [])
    ++ (if RegExp_test css_test path
        then ["style-loader!css-loader"%string] else [])
    ++ (if RegExp_test image_test path
           && negb (RegExp_test leaflet_marker_selector path)
           && negb (RegExp_test fullscreen_icon path)
        then ["file"%string] else [])
    ++ (if RegExp_test leaflet_marker_selector path
        then ["file?name=[name].[ext]"%string] else [])
    ++ (if RegExp_test leaflet_layer_icon path
        then ["file?name=[name].[ext]"%string] else [])
    ++ (if RegExp_test fullscreen_icon path
        then ["file?name=[name].[ext]"%string] else []).
Proof.
  unfold loaders_for, loaders. rewrite !filter_cons, filter_nil.
  unfold applies, generic_file_rule. simpl.
  rewrite !andb_true_r, andb_assoc.
  repeat match goal with
         | |- context [decide (?b = true)] => destruct b; simpl
         end; reflexivity.
Qed.

Lemma elem_of_if_singleton (b : bool) (x y : string) :
  x ∈ (if b then [y] else []) ↔ b = true ∧ x = y.
Proof.
  destruct b.
  - rewrite list_elem_of_singleton. tauto.
  - rewrite elem_of_nil. split; [done | by intros [? _]].
Qed.

Lemma elem_of_loaders_for name path :
  name ∈ loaders_for path
  ↔ (RegExp_test json_test path = true ∧ name = "json-loader"%string)
    ∨ (RegExp_test css_test path = true
       ∧ name = "style-loader!css-loader"%string)
    ∨ (RegExp_test image_test path = true
       ∧ RegExp_test leaflet_marker_selector path = false
       ∧ RegExp_test fullscreen_icon path = false
       ∧ name = "file"%string)
    ∨ ((RegExp_test leaflet_marker_selector path = true
        ∨ RegExp_test leaflet_layer_icon path = true
        ∨ RegExp_test fullscreen_icon path = true)
       ∧ name = "file?name=[name].[ext]"%string).
Proof.
  rewrite loaders_for_eq, !elem_of_app, !elem_of_if_singleton.
  rewrite !andb_true_iff, !negb_true_iff. tauto.
Qed.

(** The three files that the comment of the configuration names. *)
Example marker_files_of_the_comment :
  loaders_for (str "/w/node_modules/leaflet/images/marker-icon.png")
  = ["file?name=[name].[ext]"%string]
  ∧ loaders_for (str "/w/node_modules/leaflet/images/marker-icon-2x.png")
    = ["file?name=[name].[ext]"%string]
  ∧ loaders_for (str "/w/node_modules/leaflet/images/marker-shadow.png")
    = ["file?name=[name].[ext]"%string]
  ∧ loaders_for (str "/w/src/index.js") = [].
Proof. repeat split; vm_compute; reflexivity. Qed.

(** X10.  The rules that go by the file extension: [json-loader] is used
    for the paths that end in [.json] and for no other, the pair of style
    loaders for those that end in [.css]; the plain [file] loader is only
    used for paths that end in [.jpg], [.png], [.gif] or [.svg]; and no path
    gets two of the three. *)
Theorem loaders_by_extension path :
  ("json-loader"%string ∈ loaders_for path ↔ str ".json" `suffix_of` path)
  ∧ ("style-loader!css-loader"%string ∈ loaders_for path
     ↔ str ".css" `suffix_of` path)
  ∧ ("file"%string ∈ loaders_for path →
     str ".jpg" `suffix_of` path ∨ str ".png" `suffix_of` path
     ∨ str ".gif" `suffix_of` path ∨ str ".svg" `suffix_of` path)
  ∧ ¬ ("json-loader"%string ∈ loaders_for path
       ∧ "style-loader!css-loader"%string ∈ loaders_for path)
  ∧ ¬ ("json-loader"%string ∈ loaders_for path
       ∧ "file"%string ∈ loaders_for path)
  ∧ ¬ ("style-loader!css-loader"%string ∈ loaders_for path
       ∧ "file"%string ∈ loaders_for path).
Proof.
  assert ("json-loader"%string ∈ loaders_for path
          ↔ str ".json" `suffix_of` path) as Hjson.
  { rewrite elem_of_loaders_for, <- test_suffix.
    change {| body := lit ".json"; dollar := true |} with json_test.
    intuition congruence. }
  assert ("style-loader!css-loader"%string ∈ loaders_for path
          ↔ str ".css" `suffix_of` path) as Hcss.
  { rewrite elem_of_loaders_for, <- test_suffix.
    change {| body := lit ".css"; dollar := true |} with css_test.
    intuition congruence. }
  assert ("file"%string ∈ loaders_for path →
          str ".jpg" `suffix_of` path ∨ str ".png" `suffix_of` path
          ∨ str ".gif" `suffix_of` path ∨ str ".svg" `suffix_of` path)
    as Hfile.
  { rewrite elem_of_loaders_for, <- test_image. intuition congruence. }
  split; [exact Hjson |]. split; [exact Hcss |]. split; [exact Hfile |].
  assert (∀ t, str t ≠ [] → str t `suffix_of` path →
            last path = last (str t)) as Hlast
    by (intros t Ht Hs; by apply last_suffix).
  assert ("json-loader"%string ∈ loaders_for path →
          last path = Some 110%N) as Hn
    by (intros H; apply Hjson in H; by apply Hlast in H).
  assert ("style-loader!css-loader"%string ∈ loaders_for path →
          last path = Some 115%N) as Hs
    by (intros H; apply Hcss in H; by apply Hlast in H).
  assert ("file"%string ∈ loaders_for path →
          last path = Some 103%N ∨ last path = Some 102%N) as Hg.
  { intros H. apply Hfile in H as [H | [H | [H | H]]];
      apply Hlast in H; try done; [left | left | right | left]; exact H. }
  split; [| split].
  - intros [Hj%Hn Hc%Hs]. congruence.
  - intros [Hj%Hn [Hf | Hf]%Hg]; congruence.
  - intros [Hc%Hs [Hf | Hf]%Hg]; congruence.
Qed.

(** X11.  The icons of leaflet that are to keep their names.  A path with
    [leaflet/images/marker-] or [leaflet-fullscreen/dist/fullscreen], then
    anything on one line, then [.png] never gets the plain [file] loader; it
    gets [file?name=[name].[ext]].  If it ends with that [.png] and is no
    layers icon, this is its only loader, used once. *)
Theorem icons_keep_their_names p m q path :
  no_line_terminator m →
  (path = p ++ str "leaflet/images/marker-" ++ m ++ str ".png" ++ q
   ∨ path = p ++ str "leaflet-fullscreen/dist/fullscreen" ++ m
              ++ str ".png" ++ q) →
  ("file"%string ∉ loaders_for path)
  ∧ ("file?name=[name].[ext]"%string ∈ loaders_for path)
  ∧ (q = [] →
     RegExp_test leaflet_layer_icon path = false →
     (RegExp_test leaflet_marker_selector path = false
      ∨ RegExp_test fullscreen_icon path = false) →
     loaders_for path = ["file?name=[name].[ext]"%string]).
Proof.
  intros Hm Hpath.
  assert (RegExp_test leaflet_marker_selector path = true
          ∨ RegExp_test fullscreen_icon path = true) as Hicon.
  { destruct Hpath as [-> | ->]; [left | right];
      apply test_icon; by exists p, m, q. }
  split; [rewrite elem_of_loaders_for; intuition congruence |].
  split; [rewrite elem_of_loaders_for; tauto |].
  intros -> Hlayer Hone.
  assert (str ".png" `suffix_of` path) as Hpng.
  { destruct Hpath as [-> | ->]; rewrite app_nil_r, !app_assoc;
      by eexists. }
  assert (RegExp_test json_test path = false) as Hjson.
  { apply not_true_is_false. intros Hj%(test_suffix ".json").
    apply last_suffix in Hj; [| done]. apply last_suffix in Hpng; [| done].
    rewrite Hpng in Hj. discriminate Hj. }
  assert (RegExp_test css_test path = false) as Hcss.
  { apply not_true_is_false. intros Hc%(test_suffix ".css").
    apply last_suffix in Hc; [| done]. apply last_suffix in Hpng; [| done].
    rewrite Hpng in Hc. discriminate Hc. }
  rewrite loaders_for_eq, Hjson, Hcss, Hlayer.
  destruct Hicon as [Hi | Hi], Hone as [Ho | Ho]; rewrite ?Hi, ?Ho;
    try congruence; simpl; rewrite ?andb_false_r; reflexivity.
Qed.

(** X12.  The layers icons of leaflet are not among the exclusions of the
    plain [file] loader: a path that ends in [leaflet/images/layers], then
    anything on one line, then [.png], and that is no marker and no
    fullscreen icon, gets both [file] and [file?name=[name].[ext]]. *)
Theorem layers_icon_gets_both_loaders p m path :
  no_line_terminator m →
  path = p ++ str "leaflet/images/layers" ++ m ++ str ".png" →
  RegExp_test leaflet_marker_selector path = false →
  RegExp_test fullscreen_icon path = false →
  loaders_for path = ["file"; "file?name=[name].[ext]"]%string.
Proof.
  intros Hm -> Hmarker Hfull.
  set (path := p ++ str "leaflet/images/layers" ++ m ++ str ".png") in *.
  assert (RegExp_test leaflet_layer_icon path = true) as Hlayer.
  { apply test_icon. exists p, m, []. by rewrite app_nil_r. }
  assert (str ".png" `suffix_of` path) as Hpng
    by (unfold path; rewrite !app_assoc; by eexists).
  assert (RegExp_test image_test path = true) as Himage
    by (apply test_image; tauto).
  assert (RegExp_test json_test path = false) as Hjson.
  { apply not_true_is_false. intros Hj%(test_suffix ".json").
    apply last_suffix in Hj; [| done]. apply last_suffix in Hpng; [| done].
    rewrite Hpng in Hj. discriminate Hj. }
  assert (RegExp_test css_test path = false) as Hcss.
  { apply not_true_is_false. intros Hc%(test_suffix ".css").
    apply last_suffix in Hc; [| done]. apply last_suffix in Hpng; [| done].
    rewrite Hpng in Hc. discriminate Hc. }
  by rewrite loaders_for_eq, Hjson, Hcss, Himage, Hmarker, Hfull, Hlayer.
Qed.

(** X13.  Nothing else is loaded: a path that gets a loader ends in [.json],
    [.css], [.jpg], [.gif] or [.svg], or has [.png] in it. *)
Theorem loaders_for_known_files path :
  loaders_for path ≠ [] →
  str ".json" `suffix_of` path ∨ str ".css" `suffix_of` path
  ∨ str ".jpg" `suffix_of` path ∨ str ".gif" `suffix_of` path
  ∨ str ".svg" `suffix_of` path
  ∨ ∃ p q, path = p ++ str ".png" ++ q.
Proof.
  intros Hsome.
  destruct (loaders_for path) as [|name l] eqn:Hl; [done |].
  assert (name ∈ loaders_for path) as Hin by (rewrite Hl; left).
  apply elem_of_loaders_for in Hin
    as [[Hj _] | [[Hc _] | [[Hi _] | [[Hi | [Hi | Hi]] _]]]].
  - left. by apply (test_suffix ".json").
  - right. left. by apply (test_suffix ".css").
  - apply test_image in Hi as [Hi | [[p ->] | [Hi | Hi]]]; [tauto | | tauto ..].
    do 5 right. exists p, []. by rewrite app_nil_r.
  - apply test_icon in Hi as (p & m & q & -> & _). do 5 right.
    exists (p ++ str "leaflet/images/marker-" ++ m), q.
    by rewrite <- !app_assoc.
  - apply test_icon in Hi as (p & m & q & -> & _). do 5 right.
    exists (p ++ str "leaflet/images/layers" ++ m), q.
    by rewrite <- !app_assoc.
  - apply test_icon in Hi as (p & m & q & -> & _). do 5 right.
    exists (p ++ str "leaflet-fullscreen/dist/fullscreen" ++ m), q.
    by rewrite <- !app_assoc.
Qed.

End WebpackFacts.

(** * [js/src/extension.js]: evaluating the script *)



(** * The further properties at concrete inputs *)

Module MoreWitness.
Import Example Webpack.

Lemma overPop_twice_witness :
  ∃ r1 w1 r2 w2 d2 r3 w3 d3,
    overPop df0 1 w0 = (inr r1, w1)
    ∧ overPop r1 2 w1 = (inr r2, w2) ∧ heap w2 !! r2 = Some d2
    ∧ overPop df0 (1 + 2) w0 = (inr r3, w3) ∧ heap w3 !! r3 = Some d3
    ∧ Z.of_nat (nrows d2) = Z.of_nat (nrows d0) * 2 ^ (1 + 2)
    ∧ drop_positions d2 = drop_positions d3.
Proof. apply (overPop_twice w0 df0 d0 1 2); [reflexivity | lia | lia]. Defined.

Lemma overPop_column_labels_witness :
  ∃ r w' d',
    overPop 4%positive 1 w1 = (inr r, w') ∧ heap w' !! r = Some d'
    ∧ column_labels d'
      = column_labels d1
        ++ filter (λ c, c ∉ column_labels d1) ["ra"; "dec"]%string.
Proof. apply (overPop_column_labels w1 4%positive d1 1). reflexivity. Defined.

Lemma overPop_well_formed_witness :
  ∃ r w' d',
    overPop df0 2 w0 = (inr r, w') ∧ heap w' !! r = Some d'
    ∧ well_formed d'.
Proof.
  apply (overPop_well_formed w0 df0 d0 2);
    [reflexivity | apply (bool_decide_unpack _); vm_compute; reflexivity].
Defined.

Lemma overPop_index_witness :
  ∃ r w' d',
    overPop df0 1 w0 = (inr r, w') ∧ heap w' !! r = Some d'
    ∧ (0 < 1 → index d' = RangeIndex (nrows d0 * 2 ^ Z.to_nat 1))
    ∧ (1 ≤ 0 → index d' = index d0).
Proof. apply (overPop_index w0 df0 d0 1). reflexivity. Defined.

Lemma overPop_rows_repeated_witness :
  ∃ r w' d',
    overPop df0 2 w0 = (inr r, w') ∧ heap w' !! r = Some d'
    ∧ rows (drop_positions d')
      = concat (replicate (2 ^ Z.to_nat 2) (rows (drop_positions d0)))
    ∧ ∀ i, (i < nrows d')%nat →
        rows (drop_positions d') !! i
        = rows (drop_positions d0) !! (i mod nrows d0)%nat.
Proof.
  apply (overPop_rows_repeated w0 df0 d0 2);
    [reflexivity | apply (bool_decide_unpack _); vm_compute; reflexivity
    | lia].
Defined.

Lemma overPop_empty_witness :
  ∃ r w' d',
    overPop df0 3 w_empty = (inr r, w') ∧ heap w' !! r = Some d'
    ∧ nrows d' = 0%nat
    ∧ rng w' = rng w_empty
    ∧ ("ra"%string, []) ∈ columns d' ∧ ("dec"%string, []) ∈ columns d'
    ∧ ∀ c vs, (c, vs) ∈ columns d' → is_position c = true → vs = [].
Proof.
  apply (overPop_empty w_empty df0 d_empty 3); reflexivity.
Defined.

Lemma overPop_generator_witness :
  ∃ r w' d' xs ys,
    overPop df0 1 w0 = (inr r, w') ∧ heap w' !! r = Some d'
    ∧ filter (λ e, e.1 = "ra"%string) (columns d') = [("ra"%string, xs)]
    ∧ filter (λ e, e.1 = "dec"%string) (columns d') = [("dec"%string, ys)]
    ∧ length xs = nrows d' ∧ length ys = nrows d'
    ∧ xs ++ ys = (λ i, position i (rng w0)) <$> seq 0 (2 * nrows d')
    ∧ rng w' = skip_words (4 * nrows d') (rng w0).
Proof.
  apply (overPop_generator w0 df0 d0 1);
    [reflexivity | vm_compute; lia | vm_compute; lia].
Defined.

Lemma overPop_positions_independent_witness :
  ∃ r w2 d2 r' w2' d2',
    overPop df0 1 w0 = (inr r, w2) ∧ heap w2 !! r = Some d2
    ∧ overPop 4%positive 1 w1 = (inr r', w2') ∧ heap w2' !! r' = Some d2'
    ∧ rng w2 = rng w2'
    ∧ ∀ c, is_position c = true →
        filter (λ e, e.1 = c) (columns d2)
        = filter (λ e, e.1 = c) (columns d2').
Proof.
  apply (overPop_positions_independent w0 w1 df0 4%positive d0 d1 1);
    reflexivity.
Defined.

Lemma overPop_again_witness :
  ∃ r1 v1 e1 r2 v2 e2,
    overPop df0 0 w_rep = (inr r1, v1) ∧ heap v1 !! r1 = Some e1
    ∧ overPop df0 0 v1 = (inr r2, v2) ∧ heap v2 !! r2 = Some e2
    ∧ r2 ≠ r1 ∧ heap v2 !! r1 = Some e1 ∧ heap v2 !! df0 = Some d_rep
    ∧ drop_positions e2 = drop_positions e1
    ∧ nrows e2 = nrows e1
    ∧ rng v1 = skip_words (4 * nrows e1) (rng w_rep)
    ∧ rng v2 = skip_words (8 * nrows e1) (rng w_rep)
    ∧ ∀ c, is_position c = true →
        filter (λ e, e.1 = c) (columns e2)
        = if bool_decide (1 < count_label c d_rep
                          ∧ count_label c d_rep = nrows e1)%nat
          then (λ i, (c, replicate (nrows e1)
                           (position
                              (2 * nrows e1
                               + (if bool_decide (c = "ra"%string)
                                  then 0 else nrows e1) + i) (rng w_rep))))
                 <$> seq 0 (nrows e1)
          else replicate (Nat.max 1 (count_label c d_rep))
                 (c, drawn (2 * nrows e1
                            + (if bool_decide (c = "ra"%string)
                               then 0 else nrows e1)) (nrows e1)
                       (rng w_rep)).
Proof. apply (overPop_again w_rep df0 d_rep 0). reflexivity. Defined.

Lemma icons_keep_their_names_witness :
  let path := str "node_modules/leaflet/images/marker-icon-2x.png" in
  ("file"%string ∉ loaders_for path)
  ∧ ("file?name=[name].[ext]"%string ∈ loaders_for path)
  ∧ (@nil N = [] →
     RegExp_test leaflet_layer_icon path = false →
     (RegExp_test leaflet_marker_selector path = false
      ∨ RegExp_test fullscreen_icon path = false) →
     loaders_for path = ["file?name=[name].[ext]"%string]).
Proof.
  apply (WebpackFacts.icons_keep_their_names
           (str "node_modules/") (str "icon-2x") []);
    [apply (bool_decide_unpack _); vm_compute; reflexivity
    | left; reflexivity].
Defined.

Lemma layers_icon_gets_both_loaders_witness :
  loaders_for (str "node_modules/leaflet/images/layers-2x.png")
  = ["file"; "file?name=[name].[ext]"]%string.
Proof.
  apply (WebpackFacts.layers_icon_gets_both_loaders
           (str "node_modules/") (str "-2x"));
    [apply (bool_decide_unpack _); vm_compute; reflexivity
    | reflexivity | vm_compute; reflexivity | vm_compute; reflexivity].
Defined.

Lemma loaders_for_known_files_witness :
  let path := str "src/css/map.css" in
  str ".json" `suffix_of` path ∨ str ".css" `suffix_of` path
  ∨ str ".jpg" `suffix_of` path ∨ str ".gif" `suffix_of` path
  ∨ str ".svg" `suffix_of` path
  ∨ ∃ p q, path = p ++ str ".png" ++ q.
Proof.
  apply (WebpackFacts.loaders_for_known_files (str "src/css/map.css")).
  vm_compute. discriminate.
Defined.

End MoreWitness.
